(** * The vehicle warehouse: a bounded circular buffer behind a monitor

    Shallow embedding of [VG_exam_programming_embedded_systems.cpp]:
    the [Vehicle] hierarchy, the [Warehouse] ring buffer with its two
    blocking operations, the [producer] loop and the threads started by
    [main].

    Conventions of the embedding.
    - An [int] is a [Z]; arithmetic on it goes through [int_wrap], the
      two's-complement result of a 32-bit operation.
    - A [Vehicle *] is an [option Vehicle]: [None] is [nullptr], [Some v]
      is a pointer to the heap object [v].  Ownership of a vehicle moves
      from the producer to the warehouse and on to one consumer, so no
      two live pointers denote the same object.
    - [std::vector<Vehicle *>] is a [list]; an access outside the vector
      and a division by zero have no defined behaviour and are reported
      as [Undefined].
    - Every statement of [addVehicle] and [removeVehicle] between the
      acquisition of [mu] and [locker.unlock()] runs with the mutex held,
      and [cond.wait(locker, pred)] evaluates [pred] with the mutex held.
      One evaluation of the predicate together with the statements that
      follow it is therefore one atomic transition of the warehouse: the
      call either [Waits] (predicate false, the caller sleeps and the
      warehouse is untouched) or [Returns]. *)

From Stdlib Require Import ZArith Lia.
From stdpp Require Import base list strings.

Local Open Scope Z_scope.

(** ** Machine integers *)

Definition INT_MAX : Z := 2147483647.
Definition INT_MIN : Z := -2147483648.

Definition is_int (z : Z) : Prop := INT_MIN <= z <= INT_MAX.

(** Result of a 32-bit signed operation whose exact value is [z]. *)
Definition int_wrap (z : Z) : Z := (z - INT_MIN) mod 2 ^ 32 + INT_MIN.

(** [a % b] on [int]: the remainder takes the sign of the dividend; a zero
    divisor and [INT_MIN % -1] are undefined. *)
Definition int_rem (a b : Z) : option Z :=
  if b =? 0 then None
  else if (a =? INT_MIN) && (b =? -1) then None
  else Some (Z.rem a b).

(** ** Vehicles *)

Inductive Vehicle : Type :=
| CarObject (ID : Z) (model type : string) (maxPassengers : Z)
| TruckObject (ID : Z) (model type : string) (maxLoad : Z).

(** [Car::Car(int id, const std::string &model)] *)
Definition Car (id : Z) (model : string) : Vehicle :=
  CarObject id model "Car" 4.

(** [Truck::Truck(int id, const std::string &model)] *)
Definition Truck (id : Z) (model : string) : Vehicle :=
  TruckObject id model "Truck" 4000.

Definition ID (v : Vehicle) : Z :=
  match v with
  | CarObject id _ _ _ => id
  | TruckObject id _ _ _ => id
  end.

Abbreviation VehiclePtr := (option Vehicle).
Abbreviation nullptr := (@None Vehicle).

(** ** The vector of slots *)

(** [size_type] is a 64-bit unsigned integer; an [int] argument is
    converted modulo [2 ^ 64]. *)
Definition to_size_t (z : Z) : Z := z mod 2 ^ 64.

(** [max_size()] of a vector of pointers: [PTRDIFF_MAX] divided by the size of a pointer. *)
Definition vector_max_size : Z := 2 ^ 60 - 1.

(** [v.resize(n, x)]: [None] stands for the [std::length_error] thrown when
    the requested size exceeds [max_size()]; [Some] is the vector obtained
    when the storage it needs is granted.  A failed allocation
    ([std::bad_alloc]) is not represented: whatever is stated of a
    constructed warehouse is stated under the condition that construction
    has succeeded. *)
Definition vector_resize (v : list VehiclePtr) (n : Z) (x : VehiclePtr)
  : option (list VehiclePtr) :=
  let n' := to_size_t n in
  if vector_max_size <? n' then None
  else Some (take (Z.to_nat n') v ++ replicate (Z.to_nat n' - length v) x).

(** Position designated by [v[i]] for an [int] index [i]; [None] when the
    converted index is not below [v.size()]. *)
Definition vector_index (v : list VehiclePtr) (i : Z) : option nat :=
  if (0 <=? i) && (i <? Z.of_nat (length v)) then Some (Z.to_nat i) else None.

(** ** The warehouse *)

Record Warehouse : Type := mkWarehouse {
  vehicles : list VehiclePtr;
  count : Z;
  front : Z;
  rear : Z
}.

Inductive construction : Type :=
| Constructed (w : Warehouse)
| Throws_length_error.

Inductive outcome (A : Type) : Type :=
| Waits
| Returns (w : Warehouse) (a : A)
| Undefined.

Arguments Waits {A}.
Arguments Returns {A} w a.
Arguments Undefined {A}.

(** A call made by a thread, and the trace a completed call leaves:
    [dealer] is the [id] of the consumer thread that called. *)
Inductive call : Type :=
| AddVehicle (vehicle : VehiclePtr)
| RemoveVehicle (dealer : Z).

Inductive event : Type :=
| Added (vehicle : VehiclePtr)
| Removed (dealer : Z) (vehicle : VehiclePtr).

Section WarehouseCode.

(** The macro [CAPACITY], fixed when the program is compiled. *)
Variable CAPACITY : Z.

(** [Warehouse::Warehouse()] *)
Definition newWarehouse : construction :=
  match vector_resize [] CAPACITY nullptr with
  | Some vs => Constructed (mkWarehouse vs 0 0 0)
  | None => Throws_length_error
  end.

(** [Warehouse::addVehicle(Vehicle *vehicle)] *)
Definition addVehicle (w : Warehouse) (vehicle : VehiclePtr) : outcome unit :=
  if negb (count w <? CAPACITY) then Waits
  else
    match vector_index (vehicles w) (rear w) with
    | None => Undefined
    | Some i =>
      let vehicles' := <[i := vehicle]> (vehicles w) in
      match int_rem (int_wrap (rear w + 1)) CAPACITY with
      | None => Undefined
      | Some rear' =>
        Returns (mkWarehouse vehicles' (int_wrap (count w + 1)) (front w) rear') tt
      end
    end.

(** [Warehouse::removeVehicle()] *)
Definition removeVehicle (w : Warehouse) : outcome VehiclePtr :=
  if negb (0 <? count w) then Waits
  else
    match vector_index (vehicles w) (front w) with
    | None => Undefined
    | Some i =>
      match vehicles w !! i with
      | None => Undefined
      | Some vehicle =>
        let vehicles' := <[i := nullptr]> (vehicles w) in
        match int_rem (int_wrap (front w + 1)) CAPACITY with
        | None => Undefined
        | Some front' =>
          Returns (mkWarehouse vehicles' (int_wrap (count w - 1)) front' (rear w))
                  vehicle
        end
      end
    end.

(** *** Schedules

    A schedule lists, in the order in which the mutex is granted, the
    calls whose wait predicate is evaluated.  A call that [Waits] leaves
    no trace; its thread evaluates the predicate again later in the
    schedule. *)

Definition attempt (w : Warehouse) (c : call) : option (Warehouse * list event) :=
  match c with
  | AddVehicle v =>
    match addVehicle w v with
    | Waits => Some (w, [])
    | Returns w' _ => Some (w', [Added v])
    | Undefined => None
    end
  | RemoveVehicle d =>
    match removeVehicle w with
    | Waits => Some (w, [])
    | Returns w' v => Some (w', [Removed d v])
    | Undefined => None
    end
  end.

Fixpoint run (w : Warehouse) (cs : list call) : option (Warehouse * list event) :=
  match cs with
  | [] => Some (w, [])
  | c :: cs' =>
    match attempt w c with
    | None => None
    | Some (w', es) =>
      match run w' cs' with
      | None => None
      | Some (w'', es') => Some (w'', es ++ es')
      end
    end
  end.

(** States reached from a freshly constructed warehouse by completed
    operations. *)
Inductive reachable : Warehouse -> Prop :=
| reachable_new w :
    newWarehouse = Constructed w -> reachable w
| reachable_add w vehicle w' :
    reachable w -> addVehicle w vehicle = Returns w' tt -> reachable w'
| reachable_remove w w' vehicle :
    reachable w -> removeVehicle w = Returns w' vehicle -> reachable w'.

(** The vehicles waiting in the ring, oldest first: the slots
    [front], [front + 1], ... taken modulo [CAPACITY], [count] of them. *)
Definition slot (w : Warehouse) (k : nat) : VehiclePtr :=
  default nullptr (vehicles w !! Z.to_nat ((front w + Z.of_nat k) mod CAPACITY)).

Definition queue (w : Warehouse) : list VehiclePtr :=
  slot w <$> seq 0 (Z.to_nat (count w)).

End WarehouseCode.

(** Vehicles handed to [addVehicle], in order of completion. *)
Definition inserted (es : list event) : list VehiclePtr :=
  omap (fun e => match e with Added v => Some v | Removed _ _ => None end) es.

(** Vehicles returned by [removeVehicle] to any dealer, in order of
    completion. *)
Definition removed (es : list event) : list VehiclePtr :=
  omap (fun e => match e with Added _ => None | Removed _ v => Some v end) es.

(** ** The producer *)

(** One turn of the [while (true)] body of [producer]: [draw] is the value
    of [distr(eng)]; the result is the vehicle built and the value of [id]
    after [id++].  The increment is exact while [id < INT_MAX]; at
    [id = INT_MAX] it is a signed overflow, for which [int_wrap] gives the
    two's-complement result [INT_MIN]. *)
Definition produce (id draw : Z) : Vehicle * Z :=
  (if draw =? 0 then Car id "SAAB" else Truck id "VolvoTruck", int_wrap (id + 1)).

Fixpoint producer_loop (id : Z) (draws : list Z) : list Vehicle :=
  match draws with
  | [] => []
  | d :: ds => let '(v, id') := produce id d in v :: producer_loop id' ds
  end.

(** The vehicles [producer(warehouse, startID)] passes to [addVehicle]
    during its first [length draws] turns. *)
Definition producer (startID : Z) (draws : list Z) : list Vehicle :=
  producer_loop startID draws.

(** ** The threads of [main] *)

Inductive thread : Type :=
| producer_thread (startID : Z)
| consumer_thread (id : Z).

Definition numConsumers : Z := 4.

(** [for (int i = 1; i <= numConsumers; ++i) threads.push_back(...)];
    [None] when the loop has not ended within [fuel] turns. *)
Fixpoint spawn_consumers (fuel : nat) (i : Z) (threads : list thread)
  : option (list thread) :=
  if negb (i <=? numConsumers) then Some threads
  else
    match fuel with
    | O => None
    | S fuel' =>
      spawn_consumers fuel' (int_wrap (i + 1)) (threads ++ [consumer_thread i])
    end.

(** [int main()]: it declares no parameter, so the command line [argv] of
    the process is not visible to it. *)
Definition main (argv : list string) : option (list thread) :=
  spawn_consumers 16 1 [producer_thread 1001].

Definition is_consumer (t : thread) : bool :=
  match t with consumer_thread _ => true | producer_thread _ => false end.

(** ** The destructor *)

(** The heap objects designated by the pointers of a list, [nullptr]
    left out.  [Warehouse::~Warehouse()] hands every slot to [delete], which
    does nothing on [nullptr]: [destroyWarehouse] lists the objects it
    deletes, in slot order. *)
Definition objects (ptrs : list VehiclePtr) : list Vehicle :=
  omap (fun vehicle : VehiclePtr => vehicle) ptrs.

Definition destroyWarehouse (w : Warehouse) : list Vehicle :=
  objects (vehicles w).

(** ** The threads at work *)

(** One turn of the [while (true)] body of [consumer]: the vehicle taken
    from the warehouse is printed through the pointer and deleted.  The
    call [vehicle->printProperties()] through [nullptr] is undefined. *)
Definition consumer (CAPACITY : Z) (w : Warehouse) : outcome Vehicle :=
  match removeVehicle CAPACITY w with
  | Waits => Waits
  | Returns w' (Some v) => Returns w' v
  | Returns w' None => Undefined
  | Undefined => Undefined
  end.

(** The producer thread between two evaluations of the wait predicate:
    the value of [id], the values [distr(eng)] will yield, and the vehicle
    built whose [addVehicle] call is still waiting, if any. *)
Record producer_state : Type := mkProducer {
  next_id : Z;
  draws_left : list Z;
  in_flight : option Vehicle
}.

(** The producer is granted the mutex: it builds a vehicle unless one is
    in flight, and its [addVehicle] returns or waits.  With no draw left the
    thread is past the turns under observation and does nothing. *)
Definition producer_turn (CAPACITY : Z) (w : Warehouse) (p : producer_state)
  : option (Warehouse * producer_state) :=
  let store v id' ds :=
    match addVehicle CAPACITY w (Some v) with
    | Waits => Some (w, mkProducer id' ds (Some v))
    | Returns w' _ => Some (w', mkProducer id' ds None)
    | Undefined => None
    end in
  match in_flight p with
  | Some v => store v (next_id p) (draws_left p)
  | None =>
    match draws_left p with
    | [] => Some (w, p)
    | d :: ds => let '(v, id') := produce (next_id p) d in store v id' ds
    end
  end.

Inductive turn : Type :=
| producer_turn_of
| dealer_turn (id : Z).

(** One turn of the whole program; the trace records which dealer printed
    and deleted which vehicle. *)
Definition system_step (CAPACITY : Z) (s : Warehouse * producer_state) (t : turn)
  : option (Warehouse * producer_state * list (Z * Vehicle)) :=
  match t with
  | producer_turn_of =>
    match producer_turn CAPACITY s.1 s.2 with
    | Some s' => Some (s', [])
    | None => None
    end
  | dealer_turn id =>
    match consumer CAPACITY s.1 with
    | Waits => Some (s, [])
    | Returns w' v => Some ((w', s.2), [(id, v)])
    | Undefined => None
    end
  end.

Fixpoint system_run (CAPACITY : Z) (s : Warehouse * producer_state) (ts : list turn)
  : option (Warehouse * producer_state * list (Z * Vehicle)) :=
  match ts with
  | [] => Some (s, [])
  | t :: ts' =>
    match system_step CAPACITY s t with
    | None => None
    | Some (s', out) =>
      match system_run CAPACITY s' ts' with
      | None => None
      | Some (s'', out') => Some (s'', out ++ out')
      end
    end
  end.

(** ** Invariants of the ring *)

(** Sizes and ranges: [CAPACITY] is an [int], the vector has [CAPACITY]
    slots, and the three counters stay inside it. *)
Record well_formed (CAPACITY : Z) (w : Warehouse) : Prop := {
  wf_capacity : CAPACITY <= INT_MAX;
  wf_size : Z.of_nat (length (vehicles w)) = CAPACITY;
  wf_count : 0 <= count w <= CAPACITY;
  wf_front : 0 <= front w < Z.max 1 CAPACITY;
  wf_rear : 0 <= rear w < Z.max 1 CAPACITY
}.

(** The ring relation: [rear] is [count] slots ahead of [front]. *)
Record ring (CAPACITY : Z) (w : Warehouse) : Prop := {
  ring_wf : well_formed CAPACITY w;
  ring_rear : rear w = (front w + count w) mod CAPACITY
}.

(** Every slot outside the window [front], ..., [front + count - 1]
    (modulo [CAPACITY]) holds [nullptr]. *)
Definition clean (CAPACITY : Z) (w : Warehouse) : Prop :=
  forall i : nat,
    (i < length (vehicles w))%nat ->
    (forall k : nat, (k < Z.to_nat (count w))%nat ->
       i <> Z.to_nat ((front w + Z.of_nat k) mod CAPACITY)) ->
    vehicles w !! i = Some nullptr.

(** Ring relation, free slots and stored objects, together. *)
Definition sound (CAPACITY : Z) (w : Warehouse) : Prop :=
  ring CAPACITY w /\ clean CAPACITY w /\
  destroyWarehouse w ≡ₚ objects (queue CAPACITY w).

(** What the producer has still to hand over: the vehicle in flight, then
    the vehicles of its coming turns. *)
Definition to_build (p : producer_state) : list Vehicle :=
  match in_flight p with Some v => [v] | None => [] end
  ++ producer_loop (next_id p) (draws_left p).

(** The program follows the production [plan]: the vehicles delivered to
    the dealers, then the vehicles waiting in the ring, then the vehicles
    still to hand over make up the plan, in this order. *)
Definition in_order (CAPACITY : Z) (plan : list Vehicle)
    (s : Warehouse * producer_state) (delivered : list Vehicle) : Prop :=
  ring CAPACITY s.1 /\
  exists stored : list Vehicle,
    plan = stored ++ to_build s.2 /\
    Some <$> stored = (Some <$> delivered) ++ queue CAPACITY s.1.

(** * Properties *)

(** ** Integers and vectors *)

Lemma int_wrap_id z : is_int z -> int_wrap z = z.
Proof.
  unfold is_int, int_wrap, INT_MIN, INT_MAX. intros Hz.
  rewrite Z.mod_small; lia.
Qed.

Lemma int_rem_mod a b : 0 <= a -> 0 < b -> int_rem a b = Some (a mod b).
Proof.
  intros Ha Hb. unfold int_rem.
  destruct (Z.eqb_spec b 0) as [->|_]; [lia|].
  destruct (Z.eqb_spec b (-1)) as [->|_]; [lia|].
  rewrite andb_false_r, Z.rem_mod_nonneg by lia. done.
Qed.

Lemma vector_index_in (v : list VehiclePtr) i :
  0 <= i < Z.of_nat (length v) -> vector_index v i = Some (Z.to_nat i).
Proof.
  intros Hi. unfold vector_index.
  destruct (Z.leb_spec 0 i); [|lia]. destruct (Z.ltb_spec i (Z.of_nat (length v))); [|lia].
  done.
Qed.

Lemma vector_resize_empty n x :
  0 <= n <= INT_MAX -> vector_resize [] n x = Some (replicate (Z.to_nat n) x).
Proof.
  unfold INT_MAX. intros Hn. unfold vector_resize, to_size_t, vector_max_size.
  rewrite Z.mod_small by lia.
  destruct (Z.ltb_spec (2 ^ 60 - 1) n); [lia|].
  rewrite take_nil. simpl. by rewrite Nat.sub_0_r.
Qed.

Lemma vector_resize_negative (v : list VehiclePtr) n x :
  INT_MIN <= n < 0 -> vector_resize v n x = None.
Proof.
  unfold INT_MIN. intros Hn. unfold vector_resize, to_size_t, vector_max_size.
  replace (n mod 2 ^ 64) with (n + 2 ^ 64); cycle 1.
  - apply Z.mod_unique with (q := -1); lia.
  - destruct (Z.ltb_spec (2 ^ 60 - 1) (n + 2 ^ 64)); [done|lia].
Qed.

Lemma mod_offset_neq C f a b :
  0 < C -> 0 <= a < b -> b - a < C -> (f + a) mod C <> (f + b) mod C.
Proof.
  intros HC Hab Hlt Heq.
  pose proof (Z.div_mod (f + a) C ltac:(lia)) as Ha.
  pose proof (Z.div_mod (f + b) C ltac:(lia)) as Hb.
  rewrite Heq in Ha.
  set (d := (f + b) / C - (f + a) / C).
  assert (b - a = C * d) as Hd by (unfold d; lia).
  destruct (Z.le_gt_cases d 0); nia.
Qed.

Section WarehouseProperties.

Variable CAPACITY : Z.

(** *** The constructor *)

Lemma newWarehouse_constructed :
  0 <= CAPACITY <= INT_MAX ->
  newWarehouse CAPACITY =
    Constructed (mkWarehouse (replicate (Z.to_nat CAPACITY) nullptr) 0 0 0).
Proof.
  intros HC. unfold newWarehouse. by rewrite vector_resize_empty.
Qed.

Lemma newWarehouse_throws :
  INT_MIN <= CAPACITY < 0 -> newWarehouse CAPACITY = Throws_length_error.
Proof.
  intros HC. unfold newWarehouse. by rewrite vector_resize_negative.
Qed.

Lemma newWarehouse_ring w :
  is_int CAPACITY -> newWarehouse CAPACITY = Constructed w -> ring CAPACITY w.
Proof.
  intros [Hlo Hhi] Hnew.
  destruct (Z.lt_ge_cases CAPACITY 0) as [Hneg|Hpos].
  - rewrite newWarehouse_throws in Hnew by lia. discriminate.
  - rewrite newWarehouse_constructed in Hnew by lia.
    injection Hnew as <-. split; [split|]; simpl; try lia.
    + rewrite length_replicate. lia.
    + destruct (Z.eq_dec CAPACITY 0) as [->|]; [done|].
      rewrite Z.mod_small; lia.
Qed.

(** *** One completed operation *)

Lemma addVehicle_returns w vehicle :
  well_formed CAPACITY w -> count w < CAPACITY ->
  addVehicle CAPACITY w vehicle =
    Returns (mkWarehouse (<[Z.to_nat (rear w) := vehicle]> (vehicles w))
                         (count w + 1) (front w) ((rear w + 1) mod CAPACITY)) tt.
Proof.
  intros [Hcap Hsize Hcount Hfront Hrear] Hlt. unfold addVehicle.
  destruct (Z.ltb_spec (count w) CAPACITY); [simpl|lia].
  rewrite vector_index_in by lia.
  unfold INT_MAX in Hcap.
  rewrite !int_wrap_id by (unfold is_int, INT_MIN, INT_MAX; lia).
  rewrite int_rem_mod by lia. done.
Qed.

Lemma removeVehicle_returns w :
  well_formed CAPACITY w -> 0 < count w ->
  exists vehicle,
    vehicles w !! Z.to_nat (front w) = Some vehicle /\
    removeVehicle CAPACITY w =
      Returns (mkWarehouse (<[Z.to_nat (front w) := nullptr]> (vehicles w))
                           (count w - 1) ((front w + 1) mod CAPACITY) (rear w))
              vehicle.
Proof.
  intros [Hcap Hsize Hcount Hfront Hrear] Hlt. unfold removeVehicle.
  destruct (Z.ltb_spec 0 (count w)); [simpl|lia].
  rewrite vector_index_in by lia.
  destruct (lookup_lt_is_Some_2 (vehicles w) (Z.to_nat (front w))) as [v Hv]; [lia|].
  exists v. split; [done|]. rewrite Hv.
  unfold INT_MAX in Hcap.
  rewrite !int_wrap_id by (unfold is_int, INT_MIN, INT_MAX; lia).
  rewrite int_rem_mod by lia. done.
Qed.

Lemma addVehicle_waits w vehicle :
  CAPACITY <= count w -> addVehicle CAPACITY w vehicle = Waits.
Proof.
  intros Hge. unfold addVehicle.
  destruct (Z.ltb_spec (count w) CAPACITY); [lia|done].
Qed.

Lemma removeVehicle_waits w :
  count w <= 0 -> removeVehicle CAPACITY w = Waits.
Proof.
  intros Hle. unfold removeVehicle.
  destruct (Z.ltb_spec 0 (count w)); [lia|done].
Qed.

(** *** The ring relation and the queue of waiting vehicles *)

Lemma addVehicle_guard w vehicle w' u :
  addVehicle CAPACITY w vehicle = Returns w' u -> count w < CAPACITY.
Proof.
  unfold addVehicle. destruct (Z.ltb_spec (count w) CAPACITY); [done|discriminate].
Qed.

Lemma removeVehicle_guard w w' vehicle :
  removeVehicle CAPACITY w = Returns w' vehicle -> 0 < count w.
Proof.
  unfold removeVehicle. destruct (Z.ltb_spec 0 (count w)); [done|discriminate].
Qed.

Lemma queue_length w :
  0 <= count w -> Z.of_nat (length (queue CAPACITY w)) = count w.
Proof.
  intros Hc. unfold queue. rewrite length_fmap, length_seq. lia.
Qed.

Lemma ring_add w vehicle w' :
  ring CAPACITY w -> addVehicle CAPACITY w vehicle = Returns w' tt ->
  ring CAPACITY w' /\ queue CAPACITY w' = queue CAPACITY w ++ [vehicle].
Proof.
  intros [Hwf Hring] Hadd.
  pose proof (addVehicle_guard _ _ _ _ Hadd) as Hlt.
  rewrite addVehicle_returns in Hadd by done. injection Hadd as <-.
  destruct Hwf as [Hcap Hsize Hcount Hfront Hrear].
  assert (0 < CAPACITY) as HC by lia.
  split.
  - split; [split|]; simpl; try lia.
    + rewrite length_insert. lia.
    + pose proof (Z.mod_pos_bound (rear w + 1) CAPACITY HC). lia.
    + rewrite Hring, Zplus_mod_idemp_l. f_equal. lia.
  - unfold queue; simpl.
    replace (Z.to_nat (count w + 1)) with (S (Z.to_nat (count w))) by lia.
    rewrite seq_S, fmap_app. simpl. f_equal.
    + apply list_fmap_ext. intros i k [-> Hk]%lookup_seq.
      unfold slot; simpl. rewrite list_lookup_insert_ne; [done|].
      rewrite Hring. intros Hidx. apply Z2Nat.inj in Hidx.
      * symmetry in Hidx. revert Hidx. apply mod_offset_neq; lia.
      * apply Z.mod_pos_bound; lia.
      * apply Z.mod_pos_bound; lia.
    + unfold slot; simpl. rewrite Z2Nat.id by lia.
      rewrite <- Hring, list_lookup_insert_eq by lia. done.
Qed.

Lemma ring_remove w w' vehicle :
  ring CAPACITY w -> removeVehicle CAPACITY w = Returns w' vehicle ->
  ring CAPACITY w' /\ queue CAPACITY w = vehicle :: queue CAPACITY w'.
Proof.
  intros [Hwf Hring] Hrem.
  pose proof (removeVehicle_guard _ _ _ Hrem) as Hlt.
  destruct (removeVehicle_returns w Hwf Hlt) as (v & Hv & Heq).
  rewrite Heq in Hrem. injection Hrem as <- <-.
  destruct Hwf as [Hcap Hsize Hcount Hfront Hrear].
  assert (0 < CAPACITY) as HC by lia.
  split.
  - split; [split|]; simpl; try lia.
    + rewrite length_insert. lia.
    + pose proof (Z.mod_pos_bound (front w + 1) CAPACITY HC). lia.
    + rewrite Hring, Zplus_mod_idemp_l. f_equal. lia.
  - unfold queue; simpl.
    replace (Z.to_nat (count w)) with (S (Z.to_nat (count w - 1))) by lia.
    simpl. f_equal.
    + unfold slot. rewrite Z.add_0_r, Z.mod_small, Hv by lia. done.
    + rewrite <- fmap_S_seq, <- list_fmap_compose.
      apply list_fmap_ext. intros i k [-> Hk]%lookup_seq.
      unfold slot; simpl. rewrite Zplus_mod_idemp_l.
      replace (front w + 1 + Z.of_nat i) with (front w + Z.of_nat (S i)) by lia.
      rewrite list_lookup_insert_ne; [done|].
      intros Hidx. apply Z2Nat.inj in Hidx.
      * rewrite <- (Z.mod_small (front w) CAPACITY) in Hidx at 1 by lia.
        rewrite <- (Z.add_0_r (front w)) in Hidx at 1.
        revert Hidx. apply mod_offset_neq; lia.
      * lia.
      * apply Z.mod_pos_bound; lia.
Qed.

Lemma reachable_ring w :
  is_int CAPACITY -> reachable CAPACITY w -> ring CAPACITY w.
Proof.
  intros HC Hreach. induction Hreach as [w Hnew|w v w' _ IH Hadd|w w' v _ IH Hrem].
  - by apply newWarehouse_ring.
  - by apply (ring_add w v w').
  - by apply (ring_remove w w' v).
Qed.

(** *** Schedules *)

Lemma attempt_ring w c :
  ring CAPACITY w ->
  exists w' es,
    attempt CAPACITY w c = Some (w', es) /\ ring CAPACITY w' /\
    queue CAPACITY w ++ inserted es = removed es ++ queue CAPACITY w'.
Proof.
  intros Hring. destruct c as [v|d]; simpl.
  - destruct (Z.lt_ge_cases (count w) CAPACITY) as [Hlt|Hge].
    + pose proof (addVehicle_returns w v (ring_wf _ _ Hring) Hlt) as Hadd.
      destruct (ring_add w v _ Hring Hadd) as [Hring' Hq].
      rewrite Hadd. eexists _, _. split; [done|]. split; [done|].
      by rewrite Hq.
    + rewrite addVehicle_waits by done.
      exists w, []. by rewrite app_nil_r.
  - destruct (Z.lt_ge_cases 0 (count w)) as [Hlt|Hge].
    + destruct (removeVehicle_returns w (ring_wf _ _ Hring) Hlt) as (v & _ & Hrem).
      destruct (ring_remove w _ v Hring Hrem) as [Hring' Hq].
      rewrite Hrem. eexists _, _. split; [done|]. split; [done|].
      by rewrite Hq, app_nil_r.
    + rewrite removeVehicle_waits by done.
      exists w, []. by rewrite app_nil_r.
Qed.

Lemma run_ring cs : forall w,
  ring CAPACITY w ->
  exists w' es,
    run CAPACITY w cs = Some (w', es) /\ ring CAPACITY w' /\
    queue CAPACITY w ++ inserted es = removed es ++ queue CAPACITY w'.
Proof.
  induction cs as [|c cs IH]; intros w Hring; simpl.
  - exists w, []. by rewrite app_nil_r.
  - destruct (attempt_ring w c Hring) as (w1 & es1 & -> & Hring1 & Hq1).
    destruct (IH w1 Hring1) as (w2 & es2 & -> & Hring2 & Hq2).
    exists w2, (es1 ++ es2). split; [done|]. split; [done|].
    unfold inserted, removed in *. rewrite !omap_app.
    rewrite app_assoc, Hq1, <- !app_assoc. by rewrite Hq2.
Qed.

Lemma run_app cs1 : forall w cs2,
  run CAPACITY w (cs1 ++ cs2) =
    match run CAPACITY w cs1 with
    | None => None
    | Some (w1, es1) =>
      match run CAPACITY w1 cs2 with
      | None => None
      | Some (w2, es2) => Some (w2, es1 ++ es2)
      end
    end.
Proof.
  induction cs1 as [|c cs1 IH]; intros w cs2; simpl.
  - by destruct (run CAPACITY w cs2) as [[w2 es2]|].
  - destruct (attempt CAPACITY w c) as [[w1 es1]|]; [|done].
    rewrite IH. destruct (run CAPACITY w1 cs1) as [[w2 es2]|]; [|done].
    destruct (run CAPACITY w2 cs2) as [[w3 es3]|]; [|done].
    by rewrite app_assoc.
Qed.

Lemma run_balance w cs w' es :
  ring CAPACITY w -> run CAPACITY w cs = Some (w', es) ->
  count w + Z.of_nat (length (inserted es)) =
    Z.of_nat (length (removed es)) + count w'.
Proof.
  intros Hring Hrun.
  destruct (run_ring cs w Hring) as (w1 & es1 & Hrun1 & Hring1 & Hq).
  rewrite Hrun in Hrun1. injection Hrun1 as <- <-.
  apply (f_equal length) in Hq. rewrite !length_app in Hq.
  pose proof (queue_length w) as Hl. pose proof (queue_length w') as Hl'.
  destruct Hring as [[] _], Hring1 as [[] _]. lia.
Qed.

(** The dealers in [dealers] each take one vehicle: the queue is handed
    out from its oldest element on. *)
Lemma run_drain dealers : forall w,
  ring CAPACITY w -> Z.of_nat (length dealers) = count w ->
  exists w',
    run CAPACITY w (RemoveVehicle <$> dealers) =
      Some (w', zip_with Removed dealers (queue CAPACITY w)) /\
    count w' = 0.
Proof.
  induction dealers as [|d ds IH]; intros w Hring Hlen; simpl length in Hlen.
  - exists w. split; [done|lia].
  - rewrite fmap_cons. cbn [run attempt].
    assert (0 < count w) as Hpos by lia.
    destruct (removeVehicle_returns w (ring_wf _ _ Hring) Hpos) as (v & _ & Hrem).
    destruct (ring_remove w _ v Hring Hrem) as [Hring' Hq].
    destruct (IH _ Hring') as (w' & Hrun & Hc); [simpl; lia|].
    exists w'. rewrite Hrem, Hrun, Hq. done.
Qed.

End WarehouseProperties.

(** ** Traces *)

Lemma removed_zip_with dealers : forall q,
  length dealers = length q ->
  removed (zip_with Removed dealers q) = q /\ inserted (zip_with Removed dealers q) = [].
Proof.
  induction dealers as [|d ds IH]; intros [|x q] Hlen; simpl in *; try done.
  destruct (IH q) as [Hr Hi]; [lia|].
  unfold removed, inserted in *. simpl. by rewrite Hr, Hi.
Qed.

Lemma removed_nonempty es :
  (0 < length (removed es))%nat -> exists d x, Removed d x ∈ es.
Proof.
  induction es as [|[v|d x] es IH]; simpl; intros Hlen.
  - lia.
  - destruct (IH Hlen) as (d & x & Hin). exists d, x. by apply list_elem_of_further.
  - exists d, x. apply list_elem_of_here.
Qed.

Lemma inserted_nonempty es :
  (0 < length (inserted es))%nat -> exists x, Added x ∈ es.
Proof.
  induction es as [|[v|d x] es IH]; simpl; intros Hlen.
  - lia.
  - exists v. apply list_elem_of_here.
  - destruct (IH Hlen) as (v & Hin). exists v. by apply list_elem_of_further.
Qed.

(** ** The warehouse as a bounded FIFO buffer *)

(** C1. In every state reached from a freshly constructed warehouse by
    completed [addVehicle] and [removeVehicle] operations, the occupancy
    satisfies [0 <= count <= CAPACITY]. *)
Theorem count_within_capacity CAPACITY w :
  is_int CAPACITY -> reachable CAPACITY w -> 0 <= count w <= CAPACITY.
Proof.
  intros HC Hreach.
  destruct (reachable_ring CAPACITY w HC Hreach) as [Hwf _].
  apply (wf_count _ _ Hwf).
Qed.

Lemma count_within_capacity_witness :
  0 <= count (mkWarehouse (Some (Car 1001 "SAAB") :: replicate 7 nullptr) 1 0 1) <= 8.
Proof.
  apply (count_within_capacity 8).
  - unfold is_int, INT_MIN, INT_MAX. lia.
  - eapply reachable_add with (vehicle := Some (Car 1001 "SAAB")).
    + apply reachable_new. reflexivity.
    + reflexivity.
Defined.

(** C2. FIFO order: along every schedule run on a freshly constructed
    warehouse, the k-th vehicle returned by [removeVehicle] is the k-th
    vehicle passed to [addVehicle]; the vehicles removed form a prefix of
    the vehicles inserted. *)
Theorem removals_in_insertion_order CAPACITY w0 cs w es :
  is_int CAPACITY ->
  newWarehouse CAPACITY = Constructed w0 ->
  run CAPACITY w0 cs = Some (w, es) ->
  removed es `prefix_of` inserted es /\
  forall k vehicle, removed es !! k = Some vehicle -> inserted es !! k = Some vehicle.
Proof.
  intros HC Hnew Hrun.
  pose proof (newWarehouse_ring CAPACITY w0 HC Hnew) as Hring.
  destruct (run_ring CAPACITY cs w0 Hring) as (w1 & es1 & Hrun1 & _ & Hq).
  rewrite Hrun in Hrun1. injection Hrun1 as <- <-.
  assert (queue CAPACITY w0 = []) as Hempty.
  { destruct (Z.lt_ge_cases CAPACITY 0) as [Hneg|Hpos].
    - destruct HC. rewrite newWarehouse_throws in Hnew by lia. discriminate.
    - destruct HC. rewrite newWarehouse_constructed in Hnew by lia.
      by injection Hnew as <-. }
  rewrite Hempty in Hq. simpl in Hq. rewrite Hq. split.
  - by apply prefix_app_r.
  - intros k v Hk. by apply lookup_app_l_Some.
Qed.

Lemma removals_in_insertion_order_witness :
  removed [Added (Some (Car 1001 "SAAB")); Added (Some (Truck 1002 "VolvoTruck"));
           Removed 3 (Some (Car 1001 "SAAB"))]
    `prefix_of`
  inserted [Added (Some (Car 1001 "SAAB")); Added (Some (Truck 1002 "VolvoTruck"));
            Removed 3 (Some (Car 1001 "SAAB"))].
Proof.
  refine (proj1 (removals_in_insertion_order 2
    (mkWarehouse [nullptr; nullptr] 0 0 0)
    [RemoveVehicle 1; AddVehicle (Some (Car 1001 "SAAB"));
     AddVehicle (Some (Truck 1002 "VolvoTruck")); AddVehicle nullptr;
     RemoveVehicle 3]
    (mkWarehouse [nullptr; Some (Truck 1002 "VolvoTruck")] 1 1 0)
    _ _ _ _)).
  - unfold is_int, INT_MIN, INT_MAX. lia.
  - reflexivity.
  - reflexivity.
Defined.

(** C3. No loss, no duplication: a schedule run on a freshly constructed
    warehouse always runs to its end; the vehicles inserted are exactly the
    vehicles already removed followed by those still waiting, so the numbers
    agree ([inserted = removed + count]); and once the dealers have taken
    the [count] waiting vehicles, the vehicles removed by all dealers
    together are exactly the vehicles inserted, each once and in order. *)
Theorem no_loss_no_duplication CAPACITY w0 cs :
  is_int CAPACITY ->
  newWarehouse CAPACITY = Constructed w0 ->
  exists w es,
    run CAPACITY w0 cs = Some (w, es) /\
    inserted es = removed es ++ queue CAPACITY w /\
    Z.of_nat (length (inserted es)) = Z.of_nat (length (removed es)) + count w /\
    forall dealers, Z.of_nat (length dealers) = count w ->
      exists w' es',
        run CAPACITY w0 (cs ++ (RemoveVehicle <$> dealers)) = Some (w', es ++ es') /\
        count w' = 0 /\
        inserted (es ++ es') = inserted es /\
        removed (es ++ es') = inserted es /\
        length (removed (es ++ es')) = length (inserted es).
Proof.
  intros HC Hnew.
  pose proof (newWarehouse_ring CAPACITY w0 HC Hnew) as Hring.
  destruct (run_ring CAPACITY cs w0 Hring) as (w & es & Hrun & Hring' & Hq).
  assert (queue CAPACITY w0 = []) as Hempty.
  { destruct (Z.lt_ge_cases CAPACITY 0) as [Hneg|Hpos].
    - destruct HC. rewrite newWarehouse_throws in Hnew by lia. discriminate.
    - destruct HC. rewrite newWarehouse_constructed in Hnew by lia.
      by injection Hnew as <-. }
  rewrite Hempty in Hq. simpl in Hq.
  pose proof (queue_length CAPACITY w) as Hlen.
  exists w, es. split; [done|]. split; [done|]. split.
  { rewrite Hq, length_app. destruct Hring' as [[] _]. lia. }
  intros dealers Hd.
  destruct (run_drain CAPACITY dealers w Hring' Hd) as (w' & Hdrain & Hc).
  destruct (removed_zip_with dealers (queue CAPACITY w)) as [Hr Hi].
  { destruct Hring' as [[] _]. lia. }
  exists w', (zip_with Removed dealers (queue CAPACITY w)).
  rewrite run_app, Hrun, Hdrain. split; [done|]. split; [done|].
  unfold inserted, removed in *. rewrite !omap_app, Hr, Hi, app_nil_r.
  rewrite <- Hq. done.
Qed.

Lemma no_loss_no_duplication_witness :
  exists w es,
    run 2 (mkWarehouse [nullptr; nullptr] 0 0 0)
        [AddVehicle (Some (Car 1001 "SAAB")); RemoveVehicle 2;
         AddVehicle (Some (Truck 1002 "VolvoTruck"))] = Some (w, es) /\
    inserted es = removed es ++ queue 2 w /\
    Z.of_nat (length (inserted es)) = Z.of_nat (length (removed es)) + count w /\
    forall dealers, Z.of_nat (length dealers) = count w ->
      exists w' es',
        run 2 (mkWarehouse [nullptr; nullptr] 0 0 0)
            ([AddVehicle (Some (Car 1001 "SAAB")); RemoveVehicle 2;
              AddVehicle (Some (Truck 1002 "VolvoTruck"))]
             ++ (RemoveVehicle <$> dealers)) = Some (w', es ++ es') /\
        count w' = 0 /\
        inserted (es ++ es') = inserted es /\
        removed (es ++ es') = inserted es /\
        length (removed (es ++ es')) = length (inserted es).
Proof.
  apply (no_loss_no_duplication 2).
  - unfold is_int, INT_MIN, INT_MAX. lia.
  - reflexivity.
Defined.

(** C4. In a well-formed warehouse with [count < CAPACITY], [addVehicle]
    returns; it stores the vehicle in the slot of index [rear], leaves every
    other slot and [front] as they were, moves [rear] to
    [(rear + 1) mod CAPACITY] and adds one to [count]. *)
Theorem addVehicle_fills_rear_slot CAPACITY w vehicle :
  well_formed CAPACITY w -> count w < CAPACITY ->
  exists w',
    addVehicle CAPACITY w vehicle = Returns w' tt /\
    vehicles w' !! Z.to_nat (rear w) = Some vehicle /\
    (forall i, i <> Z.to_nat (rear w) -> vehicles w' !! i = vehicles w !! i) /\
    length (vehicles w') = length (vehicles w) /\
    rear w' = (rear w + 1) mod CAPACITY /\
    count w' = count w + 1 /\
    front w' = front w.
Proof.
  intros Hwf Hlt. eexists. split; [by apply addVehicle_returns|]. simpl.
  destruct Hwf as [Hcap Hsize Hcount Hfront Hrear].
  split; [apply list_lookup_insert_eq; lia|].
  split; [intros i Hi; by apply list_lookup_insert_ne|].
  split; [apply length_insert|done].
Qed.

Lemma addVehicle_fills_rear_slot_witness :
  exists w',
    addVehicle 3 (mkWarehouse [Some (Car 1001 "SAAB"); nullptr; nullptr] 1 0 1)
               (Some (Truck 1002 "VolvoTruck")) = Returns w' tt /\
    vehicles w' !! 1%nat = Some (Some (Truck 1002 "VolvoTruck")) /\
    (forall i, i <> 1%nat ->
       vehicles w' !! i = [Some (Car 1001 "SAAB"); nullptr; nullptr] !! i) /\
    length (vehicles w') = 3%nat /\
    rear w' = 2 /\ count w' = 2 /\ front w' = 0.
Proof.
  apply (addVehicle_fills_rear_slot 3
           (mkWarehouse [Some (Car 1001 "SAAB"); nullptr; nullptr] 1 0 1)).
  - split; simpl; unfold INT_MAX; lia.
  - simpl. lia.
Defined.

(** C5. In a well-formed warehouse with [count > 0], [removeVehicle]
    returns the vehicle held in the slot of index [front]; it sets that slot
    to [nullptr], leaves every other slot and [rear] as they were, moves
    [front] to [(front + 1) mod CAPACITY] and takes one from [count]. *)
Theorem removeVehicle_takes_front_slot CAPACITY w :
  well_formed CAPACITY w -> 0 < count w ->
  exists w' vehicle,
    removeVehicle CAPACITY w = Returns w' vehicle /\
    vehicles w !! Z.to_nat (front w) = Some vehicle /\
    vehicles w' !! Z.to_nat (front w) = Some nullptr /\
    (forall i, i <> Z.to_nat (front w) -> vehicles w' !! i = vehicles w !! i) /\
    length (vehicles w') = length (vehicles w) /\
    front w' = (front w + 1) mod CAPACITY /\
    count w' = count w - 1 /\
    rear w' = rear w.
Proof.
  intros Hwf Hlt.
  destruct (removeVehicle_returns CAPACITY w Hwf Hlt) as (v & Hv & Hrem).
  eexists _, v. split; [done|]. split; [done|]. simpl.
  destruct Hwf as [Hcap Hsize Hcount Hfront Hrear].
  split; [apply list_lookup_insert_eq; lia|].
  split; [intros i Hi; by apply list_lookup_insert_ne|].
  split; [apply length_insert|done].
Qed.

Lemma removeVehicle_takes_front_slot_witness :
  exists w' vehicle,
    removeVehicle 3 (mkWarehouse [nullptr; nullptr; Some (Car 1001 "SAAB")] 1 2 0)
      = Returns w' vehicle /\
    [nullptr; nullptr; Some (Car 1001 "SAAB")] !! 2%nat = Some vehicle /\
    vehicles w' !! 2%nat = Some nullptr /\
    (forall i, i <> 2%nat ->
       vehicles w' !! i = [nullptr; nullptr; Some (Car 1001 "SAAB")] !! i) /\
    length (vehicles w') = 3%nat /\
    front w' = 0 /\ count w' = 0 /\ rear w' = 0.
Proof.
  apply (removeVehicle_takes_front_slot 3
           (mkWarehouse [nullptr; nullptr; Some (Car 1001 "SAAB")] 1 2 0)).
  - split; simpl; unfold INT_MAX; lia.
  - simpl. lia.
Defined.

(** C6. Blocking.  A call returns only from a state in which its wait
    predicate holds ([count < CAPACITY] for [addVehicle], [count > 0] for
    [removeVehicle]); while the predicate is false the call waits.  Hence,
    starting from a full warehouse, whatever the other threads do in between,
    an [addVehicle] returns only after some [removeVehicle] has completed;
    and starting from an empty warehouse a [removeVehicle] returns only after
    some [addVehicle] has completed. *)
Theorem blocking_until_guard_holds CAPACITY w :
  ring CAPACITY w ->
  (forall vehicle w' u,
     addVehicle CAPACITY w vehicle = Returns w' u -> count w < CAPACITY) /\
  (forall w' vehicle,
     removeVehicle CAPACITY w = Returns w' vehicle -> 0 < count w) /\
  (count w = CAPACITY ->
   forall vehicle,
     addVehicle CAPACITY w vehicle = Waits /\
     forall cs w1 es w2 u,
       run CAPACITY w cs = Some (w1, es) ->
       addVehicle CAPACITY w1 vehicle = Returns w2 u ->
       count w1 < CAPACITY /\ exists dealer x, Removed dealer x ∈ es) /\
  (count w = 0 ->
   removeVehicle CAPACITY w = Waits /\
   forall cs w1 es w2 vehicle,
     run CAPACITY w cs = Some (w1, es) ->
     removeVehicle CAPACITY w1 = Returns w2 vehicle ->
     0 < count w1 /\ exists x, Added x ∈ es).
Proof.
  intros Hring. split; [|split; [|split]].
  - intros v w' u. apply addVehicle_guard.
  - intros w' v. apply removeVehicle_guard.
  - intros Hfull v. split; [apply addVehicle_waits; lia|].
    intros cs w1 es w2 u Hrun Hadd.
    pose proof (addVehicle_guard _ _ _ _ _ Hadd) as Hlt.
    split; [done|]. apply removed_nonempty.
    pose proof (run_balance _ _ _ _ _ Hring Hrun). lia.
  - intros Hempty. split; [apply removeVehicle_waits; lia|].
    intros cs w1 es w2 v Hrun Hrem.
    pose proof (removeVehicle_guard _ _ _ _ Hrem) as Hlt.
    split; [done|]. apply inserted_nonempty.
    pose proof (run_balance _ _ _ _ _ Hring Hrun). lia.
Qed.

Lemma blocking_until_guard_holds_witness :
  addVehicle 1 (mkWarehouse [Some (Car 1001 "SAAB")] 1 0 0)
             (Some (Truck 1002 "VolvoTruck")) = Waits /\
  removeVehicle 1 (mkWarehouse [nullptr] 0 0 0) = Waits.
Proof.
  split.
  - refine (proj1 (proj1 (proj2 (proj2
      (blocking_until_guard_holds 1 (mkWarehouse [Some (Car 1001 "SAAB")] 1 0 0) _)))
      _ (Some (Truck 1002 "VolvoTruck")))).
    + split; [split|]; simpl; unfold INT_MAX; try lia. reflexivity.
    + reflexivity.
  - refine (proj1 (proj2 (proj2 (proj2
      (blocking_until_guard_holds 1 (mkWarehouse [nullptr] 0 0 0) _))) _)).
    + split; [split|]; simpl; unfold INT_MAX; try lia. reflexivity.
    + reflexivity.
Defined.

(** C9. A freshly constructed warehouse is empty: [count], [front] and
    [rear] are 0, it has [CAPACITY] slots and each of them holds [nullptr];
    no vehicle is waiting, and a [removeVehicle] on it waits. *)
Theorem new_warehouse_is_empty CAPACITY w :
  is_int CAPACITY ->
  newWarehouse CAPACITY = Constructed w ->
  count w = 0 /\ front w = 0 /\ rear w = 0 /\
  Z.of_nat (length (vehicles w)) = CAPACITY /\
  (forall i, (i < length (vehicles w))%nat -> vehicles w !! i = Some nullptr) /\
  queue CAPACITY w = [] /\
  removeVehicle CAPACITY w = Waits.
Proof.
  intros [Hlo Hhi] Hnew.
  destruct (Z.lt_ge_cases CAPACITY 0) as [Hneg|Hpos].
  { rewrite newWarehouse_throws in Hnew by lia. discriminate. }
  rewrite newWarehouse_constructed in Hnew by lia. injection Hnew as <-.
  simpl. repeat split.
  - rewrite length_replicate. lia.
  - intros i Hi. rewrite length_replicate in Hi. by apply lookup_replicate.
Qed.

Lemma new_warehouse_is_empty_witness :
  newWarehouse 8 = Constructed (mkWarehouse (replicate 8 nullptr) 0 0 0) /\
  removeVehicle 8 (mkWarehouse (replicate 8 nullptr) 0 0 0) = Waits.
Proof.
  split; [reflexivity|].
  refine (proj2 (proj2 (proj2 (proj2 (proj2 (proj2
    (new_warehouse_is_empty 8 (mkWarehouse (replicate 8 nullptr) 0 0 0) _ _))))))).
  - unfold is_int, INT_MIN, INT_MAX. lia.
  - reflexivity.
Defined.

(** ** Construction *)

Lemma run_zero_capacity cs :
  run 0 (mkWarehouse [] 0 0 0) cs = Some (mkWarehouse [] 0 0 0, []).
Proof.
  induction cs as [|[v|d] cs IH]; [done| |]; cbn [run attempt].
  - rewrite addVehicle_waits by (simpl; lia). by rewrite IH.
  - rewrite removeVehicle_waits by (simpl; lia). by rewrite IH.
Qed.

(** C7, as the claim states it, fails for [CAPACITY = 0]: the constructor
    raises no error and builds a warehouse without any slot, on which both
    operations wait. *)
Lemma zero_capacity_is_constructed :
  newWarehouse 0 = Constructed (mkWarehouse [] 0 0 0) /\
  newWarehouse 0 <> Throws_length_error /\
  addVehicle 0 (mkWarehouse [] 0 0 0) (Some (Car 1001 "SAAB")) = Waits /\
  removeVehicle 0 (mkWarehouse [] 0 0 0) = Waits.
Proof. repeat split; done. Qed.

(** C7, amended.  The constructor does not examine [CAPACITY].  A negative
    [CAPACITY] makes the resize of the vector throw [std::length_error], so
    no warehouse is built; [CAPACITY = 0] is accepted and yields a warehouse
    without slots on which no call of any schedule ever completes; for
    [CAPACITY > 0], whenever construction succeeds, the warehouse has
    [CAPACITY] slots and an [addVehicle] on it returns. *)
Theorem construction_by_capacity CAPACITY :
  is_int CAPACITY ->
  (CAPACITY < 0 -> newWarehouse CAPACITY = Throws_length_error) /\
  (CAPACITY = 0 ->
   newWarehouse CAPACITY = Constructed (mkWarehouse [] 0 0 0) /\
   forall cs,
     run CAPACITY (mkWarehouse [] 0 0 0) cs = Some (mkWarehouse [] 0 0 0, [])) /\
  (0 < CAPACITY ->
   forall w,
     newWarehouse CAPACITY = Constructed w ->
     Z.of_nat (length (vehicles w)) = CAPACITY /\
     forall vehicle, exists w', addVehicle CAPACITY w vehicle = Returns w' tt).
Proof.
  intros [Hlo Hhi]. split; [|split].
  - intros Hneg. apply newWarehouse_throws. lia.
  - intros ->. split; [done|]. apply run_zero_capacity.
  - intros Hpos w Hnew.
    destruct (newWarehouse_ring CAPACITY w (conj Hlo Hhi) Hnew) as [Hwf Hring].
    split; [apply (wf_size _ _ Hwf)|].
    intros v. eexists. apply addVehicle_returns; [done|].
    assert (count w = 0) as Hzero.
    { rewrite newWarehouse_constructed in Hnew by lia. by injection Hnew as <-. }
    lia.
Qed.

Lemma construction_by_capacity_witness :
  newWarehouse 0 = Constructed (mkWarehouse [] 0 0 0) /\
  forall cs, run 0 (mkWarehouse [] 0 0 0) cs = Some (mkWarehouse [] 0 0 0, []).
Proof.
  refine (proj1 (proj2 (construction_by_capacity 0 _)) _).
  - unfold is_int, INT_MIN, INT_MAX. lia.
  - reflexivity.
Defined.

(** ** The threads *)

(** C8.  Whatever the command line of the process, [main] starts the
    producer with [startID = 1001] and exactly four consumers, numbered 1
    to 4: the number of consumers is the constant [numConsumers = 4] and is
    not read from any argument. *)
Theorem main_spawns_four_consumers argv :
  main argv =
    Some [producer_thread 1001; consumer_thread 1; consumer_thread 2;
          consumer_thread 3; consumer_thread 4] /\
  (forall threads, main argv = Some threads ->
     length (filter (fun t => is_consumer t = true) threads) = 4%nat) /\
  main argv = main ["./VG_exam_programming_embedded_systems"; "2"].
Proof.
  split; [reflexivity|]. split; [|reflexivity].
  intros threads Hmain. vm_compute in Hmain. injection Hmain as <-. reflexivity.
Qed.

(** ** The producer *)

Lemma is_int_wrap z : is_int (int_wrap z).
Proof.
  unfold is_int, int_wrap, INT_MIN, INT_MAX.
  pose proof (Z.mod_pos_bound (z - -2147483648) (2 ^ 32) ltac:(lia)). lia.
Qed.

Lemma producer_loop_length draws : forall id,
  length (producer_loop id draws) = length draws.
Proof.
  induction draws as [|d ds IH]; intros id; simpl; [done|]. by rewrite IH.
Qed.

Lemma producer_loop_ids draws : forall id,
  is_int id -> id + Z.of_nat (length draws) - 1 <= INT_MAX ->
  ID <$> producer_loop id draws =
    (fun k => id + Z.of_nat k) <$> seq 0 (length draws).
Proof.
  induction draws as [|d ds IH]; intros id Hid Hmax; [done|].
  cbn [producer_loop produce length seq]. rewrite !fmap_cons. f_equal.
  - rewrite Z.add_0_r. by destruct (d =? 0).
  - destruct ds as [|d' ds']; [done|].
    assert (int_wrap (id + 1) = id + 1) as Hwrap.
    { apply int_wrap_id. destruct Hid. simpl length in Hmax. split; lia. }
    rewrite IH.
    + rewrite Hwrap, <- fmap_S_seq, <- list_fmap_compose.
      apply list_fmap_ext. intros i k _. simpl. lia.
    + apply is_int_wrap.
    + rewrite Hwrap. simpl length in *. lia.
Qed.

Lemma producer_lookup_id startID draws i v :
  is_int startID -> startID + Z.of_nat (length draws) - 1 <= INT_MAX ->
  producer startID draws !! i = Some v -> ID v = startID + Z.of_nat i.
Proof.
  intros Hid Hmax Hv. unfold producer in Hv.
  pose proof (producer_loop_ids draws startID Hid Hmax) as Hids.
  apply (f_equal (fun l => l !! i)) in Hids.
  rewrite !list_lookup_fmap, Hv in Hids. simpl in Hids.
  apply lookup_lt_Some in Hv. rewrite producer_loop_length in Hv.
  rewrite lookup_seq_lt in Hids by done. simpl in Hids. congruence.
Qed.

(** C10, as the claim states it (for every n), fails once [id] reaches
    [INT_MAX]: started at [INT_MAX], the producer gives its second vehicle
    the ID [INT_MIN], which is neither [startID + 1] nor above the first. *)
Lemma producer_ids_wrap_at_int_max :
  producer INT_MAX [0; 1] =
    [Car INT_MAX "SAAB"; Truck INT_MIN "VolvoTruck"] /\
  exists v1 v2,
    producer INT_MAX [0; 1] !! 0%nat = Some v1 /\
    producer INT_MAX [0; 1] !! 1%nat = Some v2 /\
    ID v2 <> INT_MAX + 2 - 1 /\
    ID v2 < ID v1.
Proof.
  split; [reflexivity|].
  exists (Car INT_MAX "SAAB"), (Truck INT_MIN "VolvoTruck").
  repeat split; done.
Qed.

(** C10, amended.  As long as no [id++] overflows, that is for the turns
    with [startID + number of turns <= INT_MAX], the producer numbers its
    vehicles consecutively from [startID]: it builds one vehicle per turn,
    the n-th of them has ID [startID + n - 1], the IDs increase strictly and
    are pairwise distinct, and all of them exceed 1000 when [startID] does
    (as with the 1001 passed by [main]). *)
Theorem producer_ids_consecutive startID draws :
  is_int startID ->
  startID + Z.of_nat (length draws) <= INT_MAX ->
  length (producer startID draws) = length draws /\
  (forall n, (1 <= n <= length draws)%nat ->
     exists v, producer startID draws !! (n - 1)%nat = Some v /\
               ID v = startID + Z.of_nat n - 1) /\
  (forall i j vi vj,
     producer startID draws !! i = Some vi ->
     producer startID draws !! j = Some vj ->
     (i < j)%nat -> ID vi < ID vj) /\
  NoDup (ID <$> producer startID draws) /\
  (1000 < startID -> forall v, v ∈ producer startID draws -> 1000 < ID v).
Proof.
  intros Hid Hbound.
  assert (startID + Z.of_nat (length draws) - 1 <= INT_MAX) as Hmax by lia.
  assert (length (producer startID draws) = length draws) as Hlen
    by apply producer_loop_length.
  split; [done|]. split; [|split; [|split]].
  - intros n Hn.
    destruct (lookup_lt_is_Some_2 (producer startID draws) (n - 1)) as [v Hv]; [lia|].
    exists v. split; [done|].
    rewrite (producer_lookup_id startID draws (n - 1) v) by done. lia.
  - intros i j vi vj Hi Hj Hij.
    rewrite (producer_lookup_id startID draws i vi),
            (producer_lookup_id startID draws j vj) by done. lia.
  - unfold producer. rewrite producer_loop_ids by done.
    apply NoDup_fmap_2; [|apply NoDup_seq].
    intros x y Hxy. lia.
  - intros Hstart v [i Hv]%list_elem_of_lookup.
    rewrite (producer_lookup_id startID draws i v) by done. lia.
Qed.

Lemma producer_ids_consecutive_witness :
  producer 1001 [0; 1; 1] =
    [Car 1001 "SAAB"; Truck 1002 "VolvoTruck"; Truck 1003 "VolvoTruck"] /\
  NoDup (ID <$> producer 1001 [0; 1; 1]) /\
  forall v, v ∈ producer 1001 [0; 1; 1] -> 1000 < ID v.
Proof.
  split; [reflexivity|].
  assert (is_int 1001) as Hid by (unfold is_int, INT_MIN, INT_MAX; lia).
  assert (1001 + Z.of_nat (length [0; 1; 1]) <= INT_MAX) as Hmax
    by (unfold INT_MAX; simpl; lia).
  destruct (producer_ids_consecutive 1001 [0; 1; 1] Hid Hmax)
    as (_ & _ & _ & Hnodup & Hgt).
  split; [exact Hnodup|]. apply Hgt. lia.
Defined.

(** * Further properties of the warehouse *)

Lemma objects_app l1 l2 : objects (l1 ++ l2) = objects l1 ++ objects l2.
Proof. apply omap_app. Qed.

Lemma objects_cons x l : objects (x :: l) = objects [x] ++ objects l.
Proof. by destruct x. Qed.

(** Overwriting one slot exchanges one pointer for another. *)
Lemma objects_insert (l : list VehiclePtr) i x y :
  l !! i = Some y ->
  objects [y] ++ objects (<[i := x]> l) ≡ₚ objects [x] ++ objects l.
Proof.
  intros Hy. pose proof (lookup_lt_Some _ _ _ Hy) as Hi.
  assert (objects (<[i := x]> l) =
          objects (take i l) ++ objects [x] ++ objects (drop (S i) l)) as ->.
  { rewrite insert_take_drop, objects_app by done. f_equal. apply objects_cons. }
  assert (objects l =
          objects (take i l) ++ objects [y] ++ objects (drop (S i) l)) as ->.
  { rewrite <- (take_drop_middle l i y Hy) at 1.
    rewrite objects_app. f_equal. apply objects_cons. }
  rewrite (Permutation_app_swap_app (objects [y])).
  rewrite (Permutation_app_swap_app (objects [x]) (objects (take i l))).
  apply Permutation_app_head, Permutation_app_swap_app.
Qed.

Lemma well_formed_mod CAPACITY w :
  well_formed CAPACITY w ->
  front w mod CAPACITY = front w /\ rear w mod CAPACITY = rear w.
Proof.
  intros [Hcap Hsize Hcount Hfront Hrear].
  destruct (Z.eq_dec CAPACITY 0) as [->|Hne].
  - by rewrite !Z.mod_0_r.
  - rewrite !Z.mod_small; lia.
Qed.

Section WarehouseInvariants.

Variable CAPACITY : Z.

Lemma newWarehouse_queue w :
  is_int CAPACITY -> newWarehouse CAPACITY = Constructed w ->
  queue CAPACITY w = [] /\ clean CAPACITY w /\ destroyWarehouse w = [].
Proof.
  intros [Hlo Hhi] Hnew.
  destruct (Z.lt_ge_cases CAPACITY 0) as [Hneg|Hpos].
  { rewrite newWarehouse_throws in Hnew by lia. discriminate. }
  rewrite newWarehouse_constructed in Hnew by lia. injection Hnew as <-.
  split; [done|]. split.
  - intros i Hi _. simpl in *. rewrite length_replicate in Hi.
    by apply lookup_replicate.
  - unfold destroyWarehouse; simpl.
    induction (Z.to_nat CAPACITY) as [|n IH]; [done|]. simpl. apply IH.
Qed.

Lemma rear_slot_free w :
  ring CAPACITY w -> clean CAPACITY w -> count w < CAPACITY ->
  vehicles w !! Z.to_nat (rear w) = Some nullptr.
Proof.
  intros [[Hcap Hsize Hcount Hfront Hrear] Hring] Hclean Hlt.
  apply Hclean; [lia|]. intros k Hk Hidx. rewrite Hring in Hidx.
  apply Z2Nat.inj in Hidx; try (apply Z.mod_pos_bound; lia).
  symmetry in Hidx. revert Hidx. apply mod_offset_neq; lia.
Qed.

Lemma clean_add w vehicle w' :
  ring CAPACITY w -> clean CAPACITY w ->
  addVehicle CAPACITY w vehicle = Returns w' tt ->
  clean CAPACITY w' /\
  destroyWarehouse w' ≡ₚ objects [vehicle] ++ destroyWarehouse w.
Proof.
  intros Hring Hclean Hadd.
  pose proof (addVehicle_guard _ _ _ _ _ Hadd) as Hlt.
  pose proof (rear_slot_free w Hring Hclean Hlt) as Hfree.
  destruct Hring as [Hwf Hring].
  rewrite addVehicle_returns in Hadd by done. injection Hadd as <-.
  split.
  - intros i Hi Hout. simpl in *. rewrite length_insert in Hi.
    destruct Hwf as [Hcap Hsize Hcount Hfront Hrear].
    rewrite list_lookup_insert_ne.
    + apply Hclean; [done|]. intros k Hk. apply Hout. lia.
    + intros <-. apply (Hout (Z.to_nat (count w))); [lia|].
      rewrite Z2Nat.id by lia. by rewrite Hring.
  - exact (objects_insert (vehicles w) _ vehicle nullptr Hfree).
Qed.

Lemma clean_remove w w' vehicle :
  ring CAPACITY w -> clean CAPACITY w ->
  removeVehicle CAPACITY w = Returns w' vehicle ->
  clean CAPACITY w' /\
  objects [vehicle] ++ destroyWarehouse w' ≡ₚ destroyWarehouse w.
Proof.
  intros [Hwf Hring] Hclean Hrem.
  pose proof (removeVehicle_guard _ _ _ _ Hrem) as Hlt.
  destruct (removeVehicle_returns CAPACITY w Hwf Hlt) as (v & Hv & Heq).
  rewrite Heq in Hrem. injection Hrem as <- <-.
  split.
  - intros i Hi Hout. simpl in *. rewrite length_insert in Hi.
    destruct Hwf as [Hcap Hsize Hcount Hfront Hrear].
    destruct (decide (i = Z.to_nat (front w))) as [->|Hne].
    + by apply list_lookup_insert_eq.
    + rewrite list_lookup_insert_ne by done.
      apply Hclean; [done|]. intros [|k] Hk.
      * simpl. rewrite Z.add_0_r, Z.mod_small by lia. done.
      * replace (front w + Z.of_nat (S k)) with (front w + 1 + Z.of_nat k) by lia.
        rewrite <- Zplus_mod_idemp_l. apply Hout. lia.
  - exact (objects_insert (vehicles w) _ nullptr v Hv).
Qed.

Lemma sound_new w :
  is_int CAPACITY -> newWarehouse CAPACITY = Constructed w -> sound CAPACITY w.
Proof.
  intros HC Hnew.
  destruct (newWarehouse_queue w HC Hnew) as (Hq & Hclean & Hd).
  split; [by apply newWarehouse_ring|]. split; [done|]. by rewrite Hq, Hd.
Qed.

Lemma sound_add w vehicle w' :
  sound CAPACITY w -> addVehicle CAPACITY w vehicle = Returns w' tt -> sound CAPACITY w'.
Proof.
  intros (Hring & Hclean & Hperm) Hadd.
  destruct (ring_add CAPACITY w vehicle w' Hring Hadd) as [Hring' Hq].
  destruct (clean_add w vehicle w' Hring Hclean Hadd) as [Hclean' Hd].
  split; [done|]. split; [done|].
  rewrite Hd, Hq, objects_app, Hperm. apply Permutation_app_comm.
Qed.

Lemma sound_remove w w' vehicle :
  sound CAPACITY w -> removeVehicle CAPACITY w = Returns w' vehicle -> sound CAPACITY w'.
Proof.
  intros (Hring & Hclean & Hperm) Hrem.
  destruct (ring_remove CAPACITY w w' vehicle Hring Hrem) as [Hring' Hq].
  destruct (clean_remove w w' vehicle Hring Hclean Hrem) as [Hclean' Hd].
  split; [done|]. split; [done|].
  rewrite Hperm, Hq, (objects_cons vehicle (queue CAPACITY w')) in Hd.
  by apply Permutation_app_inv_l in Hd.
Qed.

Lemma reachable_sound w :
  is_int CAPACITY -> reachable CAPACITY w -> sound CAPACITY w.
Proof.
  intros HC Hreach. induction Hreach as [w Hnew|w v w' _ IH Hadd|w w' v _ IH Hrem].
  - by apply sound_new.
  - by apply (sound_add w v w').
  - by apply (sound_remove w w' v).
Qed.

Lemma run_reachable cs : forall w w' es,
  reachable CAPACITY w -> run CAPACITY w cs = Some (w', es) ->
  reachable CAPACITY w'.
Proof.
  induction cs as [|c cs IH]; intros w w' es Hreach Hrun; cbn [run] in Hrun.
  - by injection Hrun as <- <-.
  - destruct (attempt CAPACITY w c) as [[w1 es1]|] eqn:Hatt; [|done].
    destruct (run CAPACITY w1 cs) as [[w2 es2]|] eqn:Hrun1; [|done].
    injection Hrun as <- <-. apply (IH w1 w2 es2); [|done].
    destruct c as [v|d]; cbn [attempt] in Hatt.
    + destruct (addVehicle CAPACITY w v) as [|w3 []|] eqn:Hadd; [| |done].
      * by injection Hatt as <- <-.
      * injection Hatt as <- <-. by apply (reachable_add CAPACITY w v w3).
    + destruct (removeVehicle CAPACITY w) as [|w3 x|] eqn:Hrem; [| |done].
      * by injection Hatt as <- <-.
      * injection Hatt as <- <-. by apply (reachable_remove CAPACITY w w3 x).
Qed.

End WarehouseInvariants.

Section WarehouseSchedules.

Variable CAPACITY : Z.

Lemma run_fresh w0 cs w es :
  is_int CAPACITY -> newWarehouse CAPACITY = Constructed w0 ->
  run CAPACITY w0 cs = Some (w, es) ->
  reachable CAPACITY w /\ inserted es = removed es ++ queue CAPACITY w.
Proof.
  intros HC Hnew Hrun. split.
  - apply (run_reachable CAPACITY cs w0 w es); [by apply reachable_new|done].
  - pose proof (newWarehouse_ring CAPACITY w0 HC Hnew) as Hring.
    destruct (run_ring CAPACITY cs w0 Hring) as (w1 & es1 & Hrun1 & _ & Hq).
    rewrite Hrun in Hrun1. injection Hrun1 as <- <-.
    destruct (newWarehouse_queue CAPACITY w0 HC Hnew) as (Hempty & _).
    by rewrite Hempty in Hq.
Qed.

(** Adds only: as many complete as there are free slots, the others wait. *)
Lemma run_adds vs : forall w,
  ring CAPACITY w ->
  exists w',
    run CAPACITY w (AddVehicle <$> vs) =
      Some (w', Added <$> take (Z.to_nat (CAPACITY - count w)) vs) /\
    ring CAPACITY w' /\
    count w' = Z.min CAPACITY (count w + Z.of_nat (length vs)).
Proof.
  induction vs as [|v vs IH]; intros w Hring.
  - exists w. rewrite take_nil. split; [done|]. split; [done|].
    destruct Hring as [[] _]. simpl. lia.
  - rewrite fmap_cons. cbn [run attempt].
    destruct (Z.lt_ge_cases (count w) CAPACITY) as [Hlt|Hge].
    + pose proof (addVehicle_returns CAPACITY w v (ring_wf _ _ Hring) Hlt) as Hadd.
      destruct (ring_add CAPACITY w v _ Hring Hadd) as [Hring' _].
      destruct (IH _ Hring') as (w' & Hrun & Hring'' & Hc). cbn [count] in Hrun, Hc.
      exists w'. rewrite Hadd, Hrun. split; [|split; [done|]].
      * replace (Z.to_nat (CAPACITY - count w))
          with (S (Z.to_nat (CAPACITY - (count w + 1)))) by lia.
        done.
      * rewrite Hc. simpl length. lia.
    + destruct (IH w Hring) as (w' & Hrun & Hring' & Hc).
      exists w'. rewrite addVehicle_waits, Hrun by done.
      replace (Z.to_nat (CAPACITY - count w)) with 0%nat in * by lia.
      rewrite !take_0. split; [done|]. split; [done|].
      destruct Hring as [[] _]. simpl length. lia.
Qed.

Lemma attempt_positions w c w' es :
  ring CAPACITY w -> attempt CAPACITY w c = Some (w', es) ->
  rear w' = (rear w + Z.of_nat (length (inserted es))) mod CAPACITY /\
  front w' = (front w + Z.of_nat (length (removed es))) mod CAPACITY.
Proof.
  intros [Hwf Hring] Hatt.
  destruct (well_formed_mod CAPACITY w Hwf) as [Hf Hr].
  destruct c as [v|d]; cbn [attempt] in Hatt.
  - destruct (Z.lt_ge_cases (count w) CAPACITY) as [Hlt|Hge].
    + rewrite addVehicle_returns in Hatt by done. injection Hatt as <- <-.
      simpl. by rewrite Z.add_0_r, Hf.
    + rewrite addVehicle_waits in Hatt by done. injection Hatt as <- <-.
      simpl. by rewrite !Z.add_0_r, Hf, Hr.
  - destruct (Z.lt_ge_cases 0 (count w)) as [Hlt|Hge].
    + destruct (removeVehicle_returns CAPACITY w Hwf Hlt) as (v & _ & Hrem).
      rewrite Hrem in Hatt. injection Hatt as <- <-.
      simpl. by rewrite Z.add_0_r, Hr.
    + rewrite removeVehicle_waits in Hatt by done. injection Hatt as <- <-.
      simpl. by rewrite !Z.add_0_r, Hf, Hr.
Qed.

Lemma run_positions cs : forall w w' es,
  ring CAPACITY w -> run CAPACITY w cs = Some (w', es) ->
  rear w' = (rear w + Z.of_nat (length (inserted es))) mod CAPACITY /\
  front w' = (front w + Z.of_nat (length (removed es))) mod CAPACITY.
Proof.
  induction cs as [|c cs IH]; intros w w' es Hring Hrun; cbn [run] in Hrun.
  - injection Hrun as <- <-.
    destruct (well_formed_mod CAPACITY w (ring_wf _ _ Hring)) as [Hf Hr].
    simpl. by rewrite !Z.add_0_r, Hf, Hr.
  - destruct (attempt CAPACITY w c) as [[w1 es1]|] eqn:Hatt; [|done].
    destruct (run CAPACITY w1 cs) as [[w2 es2]|] eqn:Hrun1; [|done].
    injection Hrun as <- <-.
    destruct (attempt_positions w c w1 es1 Hring Hatt) as [Hr1 Hf1].
    destruct (attempt_ring CAPACITY w c Hring) as (w1' & es1' & Hatt' & Hring1 & _).
    rewrite Hatt in Hatt'. injection Hatt' as <- <-.
    destruct (IH w1 w2 es2 Hring1 Hrun1) as [Hr2 Hf2].
    unfold inserted, removed in *. rewrite !omap_app, !length_app, !Nat2Z.inj_add.
    rewrite Hr2, Hf2, Hr1, Hf1, !Zplus_mod_idemp_l, !Z.add_assoc. done.
Qed.

End WarehouseSchedules.

(** ** Safety and progress *)

(** X1. In every reachable state neither operation has undefined
    behaviour: no slot outside the vector is accessed and no remainder by
    zero is taken, whatever pointer is passed to [addVehicle]. *)
Theorem operations_never_undefined CAPACITY w :
  is_int CAPACITY -> reachable CAPACITY w ->
  (forall vehicle, addVehicle CAPACITY w vehicle <> Undefined) /\
  removeVehicle CAPACITY w <> Undefined.
Proof.
  intros HC Hreach.
  destruct (reachable_ring CAPACITY w HC Hreach) as [Hwf _]. split.
  - intros v. destruct (Z.lt_ge_cases (count w) CAPACITY) as [Hlt|Hge].
    + by rewrite addVehicle_returns.
    + by rewrite addVehicle_waits.
  - destruct (Z.lt_ge_cases 0 (count w)) as [Hlt|Hge].
    + destruct (removeVehicle_returns CAPACITY w Hwf Hlt) as (v & _ & ->). done.
    + by rewrite removeVehicle_waits.
Qed.

Lemma operations_never_undefined_witness :
  (forall vehicle,
     addVehicle 2 (mkWarehouse [Some (Car 1001 "SAAB"); nullptr] 1 0 1) vehicle
       <> Undefined) /\
  removeVehicle 2 (mkWarehouse [Some (Car 1001 "SAAB"); nullptr] 1 0 1) <> Undefined.
Proof.
  apply (operations_never_undefined 2).
  - unfold is_int, INT_MIN, INT_MAX. lia.
  - eapply reachable_add with (vehicle := Some (Car 1001 "SAAB")).
    + apply reachable_new. reflexivity.
    + reflexivity.
Defined.

(** X2. With a positive [CAPACITY] the producer and the dealers are never
    all blocked: in every reachable state [addVehicle] returns or
    [removeVehicle] returns. *)
Theorem never_both_blocked CAPACITY w :
  is_int CAPACITY -> 0 < CAPACITY -> reachable CAPACITY w ->
  (forall vehicle, exists w', addVehicle CAPACITY w vehicle = Returns w' tt) \/
  (exists w' vehicle, removeVehicle CAPACITY w = Returns w' vehicle).
Proof.
  intros HC Hpos Hreach.
  destruct (reachable_ring CAPACITY w HC Hreach) as [Hwf _].
  destruct (Z.lt_ge_cases (count w) CAPACITY) as [Hlt|Hge].
  - left. intros v. eexists. by apply addVehicle_returns.
  - right. destruct (removeVehicle_returns CAPACITY w Hwf) as (v & _ & Hrem); [lia|].
    by eexists _, v.
Qed.

Lemma never_both_blocked_witness :
  (forall vehicle, exists w',
     addVehicle 1 (mkWarehouse [Some (Car 1001 "SAAB")] 1 0 0) vehicle = Returns w' tt) \/
  (exists w' vehicle,
     removeVehicle 1 (mkWarehouse [Some (Car 1001 "SAAB")] 1 0 0) = Returns w' vehicle).
Proof.
  apply (never_both_blocked 1).
  - unfold is_int, INT_MIN, INT_MAX. lia.
  - lia.
  - eapply reachable_add with (vehicle := Some (Car 1001 "SAAB")).
    + apply reachable_new. reflexivity.
    + reflexivity.
Defined.

(** ** Slots, objects and the destructor *)

(** X3. In every reachable state each slot outside the window
    [front], ..., [front + count - 1] (modulo [CAPACITY]) holds [nullptr]. *)
Theorem slots_outside_window_are_null CAPACITY w :
  is_int CAPACITY -> reachable CAPACITY w ->
  forall i : nat,
    (i < length (vehicles w))%nat ->
    (forall k : nat, (k < Z.to_nat (count w))%nat ->
       i <> Z.to_nat ((front w + Z.of_nat k) mod CAPACITY)) ->
    vehicles w !! i = Some nullptr.
Proof.
  intros HC Hreach.
  destruct (reachable_sound CAPACITY w HC Hreach) as (_ & Hclean & _). exact Hclean.
Qed.

Lemma slots_outside_window_are_null_witness :
  vehicles (mkWarehouse [nullptr; Some (Truck 1002 "VolvoTruck"); nullptr] 1 1 2)
    !! 2%nat = Some nullptr.
Proof.
  apply (slots_outside_window_are_null 3).
  - unfold is_int, INT_MIN, INT_MAX. lia.
  - eapply reachable_remove with (vehicle := Some (Car 1001 "SAAB")).
    + eapply reachable_add with (vehicle := Some (Truck 1002 "VolvoTruck")).
      * eapply reachable_add with (vehicle := Some (Car 1001 "SAAB")).
        -- apply reachable_new. reflexivity.
        -- reflexivity.
      * reflexivity.
    + reflexivity.
  - simpl. lia.
  - intros k Hk. assert (k = 0%nat) as -> by (cbn [count] in Hk; lia).
    vm_compute. discriminate.
Defined.

(** X4. No leak and no double deletion: after any schedule run on a fresh
    warehouse, the objects inserted are, up to order, the objects returned
    to the dealers together with the objects the destructor deletes. *)
Theorem every_vehicle_removed_or_destroyed CAPACITY w0 cs w es :
  is_int CAPACITY ->
  newWarehouse CAPACITY = Constructed w0 ->
  run CAPACITY w0 cs = Some (w, es) ->
  objects (inserted es) ≡ₚ objects (removed es) ++ destroyWarehouse w.
Proof.
  intros HC Hnew Hrun.
  destruct (run_fresh CAPACITY w0 cs w es HC Hnew Hrun) as [Hreach Hq].
  destruct (reachable_sound CAPACITY w HC Hreach) as (_ & _ & Hperm).
  by rewrite Hq, objects_app, Hperm.
Qed.

Lemma every_vehicle_removed_or_destroyed_witness :
  objects (inserted [Added (Some (Car 1001 "SAAB")); Removed 2 (Some (Car 1001 "SAAB"));
                     Added (Some (Truck 1002 "VolvoTruck")); Added nullptr])
    ≡ₚ objects (removed [Added (Some (Car 1001 "SAAB"));
                          Removed 2 (Some (Car 1001 "SAAB"));
                          Added (Some (Truck 1002 "VolvoTruck")); Added nullptr])
       ++ destroyWarehouse (mkWarehouse [nullptr; Some (Truck 1002 "VolvoTruck")] 2 1 1).
Proof.
  apply (every_vehicle_removed_or_destroyed 2 (mkWarehouse [nullptr; nullptr] 0 0 0)
           [AddVehicle (Some (Car 1001 "SAAB")); RemoveVehicle 2;
            AddVehicle (Some (Truck 1002 "VolvoTruck")); AddVehicle nullptr]).
  - unfold is_int, INT_MIN, INT_MAX. lia.
  - reflexivity.
  - reflexivity.
Defined.

(** ** Occupancy and positions *)

(** X5. A producer working alone on a fresh warehouse stores exactly the
    first [CAPACITY] vehicles it offers: those calls return, every later
    call waits, and the vehicles stored wait in the order offered. *)
Theorem lone_producer_fills_capacity CAPACITY w0 vs :
  is_int CAPACITY ->
  newWarehouse CAPACITY = Constructed w0 ->
  exists w,
    run CAPACITY w0 (AddVehicle <$> vs) =
      Some (w, Added <$> take (Z.to_nat CAPACITY) vs) /\
    count w = Z.min CAPACITY (Z.of_nat (length vs)) /\
    queue CAPACITY w = take (Z.to_nat CAPACITY) vs.
Proof.
  intros HC Hnew.
  pose proof (newWarehouse_ring CAPACITY w0 HC Hnew) as Hring.
  assert (count w0 = 0) as Hzero.
  { destruct HC. destruct (Z.lt_ge_cases CAPACITY 0) as [Hneg|Hpos].
    - rewrite newWarehouse_throws in Hnew by lia. discriminate.
    - rewrite newWarehouse_constructed in Hnew by lia. by injection Hnew as <-. }
  destruct (run_adds CAPACITY vs w0 Hring) as (w & Hrun & _ & Hc).
  rewrite Hzero, Z.sub_0_r in Hrun. rewrite Hzero, Z.add_0_l in Hc.
  exists w. split; [done|]. split; [done|].
  destruct (run_fresh CAPACITY w0 _ w _ HC Hnew Hrun) as [_ Hq].
  set (stored := take (Z.to_nat CAPACITY) vs) in *.
  assert (inserted (Added <$> stored) = stored /\ removed (Added <$> stored) = [])
    as [Hi Hr].
  { clear. induction stored as [|x l [IH1 IH2]]; [done|].
    rewrite fmap_cons. split.
    - change (inserted (Added x :: (Added <$> l))) with (x :: inserted (Added <$> l)).
      by rewrite IH1.
    - exact IH2. }
  by rewrite Hi, Hr in Hq.
Qed.

Lemma lone_producer_fills_capacity_witness :
  exists w,
    run 2 (mkWarehouse [nullptr; nullptr] 0 0 0)
        (AddVehicle <$> [Some (Car 1001 "SAAB"); Some (Truck 1002 "VolvoTruck");
                         Some (Car 1003 "SAAB")]) =
      Some (w, Added <$> take (Z.to_nat 2)
                 [Some (Car 1001 "SAAB"); Some (Truck 1002 "VolvoTruck");
                  Some (Car 1003 "SAAB")]) /\
    count w = Z.min 2 (Z.of_nat 3) /\
    queue 2 w = take (Z.to_nat 2)
                  [Some (Car 1001 "SAAB"); Some (Truck 1002 "VolvoTruck");
                   Some (Car 1003 "SAAB")].
Proof.
  apply (lone_producer_fills_capacity 2 (mkWarehouse [nullptr; nullptr] 0 0 0)
           [Some (Car 1001 "SAAB"); Some (Truck 1002 "VolvoTruck");
            Some (Car 1003 "SAAB")]).
  - unfold is_int, INT_MIN, INT_MAX. lia.
  - reflexivity.
Defined.

(** X6. After any schedule run on a fresh warehouse, [rear] is the number
    of completed insertions and [front] the number of completed removals,
    both modulo [CAPACITY]. *)
Theorem positions_count_operations CAPACITY w0 cs w es :
  is_int CAPACITY ->
  newWarehouse CAPACITY = Constructed w0 ->
  run CAPACITY w0 cs = Some (w, es) ->
  rear w = Z.of_nat (length (inserted es)) mod CAPACITY /\
  front w = Z.of_nat (length (removed es)) mod CAPACITY.
Proof.
  intros HC Hnew Hrun.
  pose proof (newWarehouse_ring CAPACITY w0 HC Hnew) as Hring.
  destruct (run_positions CAPACITY cs w0 w es Hring Hrun) as [Hr Hf].
  assert (rear w0 = 0 /\ front w0 = 0) as [Hr0 Hf0].
  { destruct HC. destruct (Z.lt_ge_cases CAPACITY 0) as [Hneg|Hpos].
    - rewrite newWarehouse_throws in Hnew by lia. discriminate.
    - rewrite newWarehouse_constructed in Hnew by lia. by injection Hnew as <-. }
  by rewrite Hr, Hf, Hr0, Hf0.
Qed.

Lemma positions_count_operations_witness :
  rear (mkWarehouse [Some (Car 1003 "SAAB"); nullptr] 1 0 1) = 3 mod 2 /\
  front (mkWarehouse [Some (Car 1003 "SAAB"); nullptr] 1 0 1) = 2 mod 2.
Proof.
  apply (positions_count_operations 2 (mkWarehouse [nullptr; nullptr] 0 0 0)
           [AddVehicle (Some (Car 1001 "SAAB")); AddVehicle (Some (Truck 1002 "VolvoTruck"));
            RemoveVehicle 1; RemoveVehicle 4; RemoveVehicle 2;
            AddVehicle (Some (Car 1003 "SAAB"))]
           (mkWarehouse [Some (Car 1003 "SAAB"); nullptr] 1 0 1)
           [Added (Some (Car 1001 "SAAB")); Added (Some (Truck 1002 "VolvoTruck"));
            Removed 1 (Some (Car 1001 "SAAB")); Removed 4 (Some (Truck 1002 "VolvoTruck"));
            Added (Some (Car 1003 "SAAB"))]).
  - unfold is_int, INT_MIN, INT_MAX. lia.
  - reflexivity.
  - reflexivity.
Defined.

(** X7. With a positive [CAPACITY], in every reachable state [front] and
    [rear] coincide exactly when the warehouse is empty or full. *)
Theorem front_meets_rear_iff_empty_or_full CAPACITY w :
  is_int CAPACITY -> 0 < CAPACITY -> reachable CAPACITY w ->
  front w = rear w <-> count w = 0 \/ count w = CAPACITY.
Proof.
  intros HC Hpos Hreach.
  destruct (reachable_ring CAPACITY w HC Hreach)
    as [[Hcap Hsize Hcount Hfront Hrear] Hring].
  split.
  - intros Heq.
    destruct (Z.eq_dec (count w) 0) as [|Hne0]; [by left|].
    destruct (Z.eq_dec (count w) CAPACITY) as [|HneC]; [by right|].
    exfalso. rewrite Hring in Heq.
    rewrite <- (Z.mod_small (front w) CAPACITY) in Heq at 1 by lia.
    rewrite <- (Z.add_0_r (front w)) in Heq at 1.
    revert Heq. apply mod_offset_neq; lia.
  - intros [Hc|Hc]; rewrite Hring, Hc.
    + rewrite Z.add_0_r, Z.mod_small; lia.
    + rewrite <- (Z.mul_1_l CAPACITY) at 1. rewrite Z.mod_add, Z.mod_small; lia.
Qed.

Lemma front_meets_rear_iff_empty_or_full_witness :
  front (mkWarehouse [Some (Car 1001 "SAAB"); Some (Truck 1002 "VolvoTruck")] 2 0 0)
    = rear (mkWarehouse [Some (Car 1001 "SAAB"); Some (Truck 1002 "VolvoTruck")] 2 0 0)
  <-> count (mkWarehouse [Some (Car 1001 "SAAB"); Some (Truck 1002 "VolvoTruck")] 2 0 0) = 0
      \/ count (mkWarehouse [Some (Car 1001 "SAAB"); Some (Truck 1002 "VolvoTruck")] 2 0 0) = 2.
Proof.
  apply (front_meets_rear_iff_empty_or_full 2).
  - unfold is_int, INT_MIN, INT_MAX. lia.
  - lia.
  - eapply reachable_add with (vehicle := Some (Truck 1002 "VolvoTruck")).
    + eapply reachable_add with (vehicle := Some (Car 1001 "SAAB")).
      * apply reachable_new. reflexivity.
      * reflexivity.
    + reflexivity.
Defined.

(** X8. After any schedule run on a fresh warehouse, [count] is the number
    of completed insertions minus the number of completed removals; the
    producer is never behind the dealers and never more than [CAPACITY]
    vehicles ahead of them. *)
Theorem backlog_bounded CAPACITY w0 cs w es :
  is_int CAPACITY ->
  newWarehouse CAPACITY = Constructed w0 ->
  run CAPACITY w0 cs = Some (w, es) ->
  count w = Z.of_nat (length (inserted es)) - Z.of_nat (length (removed es)) /\
  0 <= Z.of_nat (length (inserted es)) - Z.of_nat (length (removed es)) <= CAPACITY.
Proof.
  intros HC Hnew Hrun.
  destruct (run_fresh CAPACITY w0 cs w es HC Hnew Hrun) as [Hreach Hq].
  destruct (reachable_ring CAPACITY w HC Hreach) as [[_ _ Hcount _ _] _].
  apply (f_equal length) in Hq. rewrite length_app in Hq.
  pose proof (queue_length CAPACITY w ltac:(lia)). lia.
Qed.

Lemma backlog_bounded_witness :
  count (mkWarehouse [nullptr; Some (Truck 1002 "VolvoTruck")] 1 1 0) =
    Z.of_nat (length (inserted [Added (Some (Car 1001 "SAAB"));
                                Added (Some (Truck 1002 "VolvoTruck"));
                                Removed 3 (Some (Car 1001 "SAAB"))]))
    - Z.of_nat (length (removed [Added (Some (Car 1001 "SAAB"));
                                 Added (Some (Truck 1002 "VolvoTruck"));
                                 Removed 3 (Some (Car 1001 "SAAB"))])) /\
  0 <= Z.of_nat (length (inserted [Added (Some (Car 1001 "SAAB"));
                                   Added (Some (Truck 1002 "VolvoTruck"));
                                   Removed 3 (Some (Car 1001 "SAAB"))]))
       - Z.of_nat (length (removed [Added (Some (Car 1001 "SAAB"));
                                    Added (Some (Truck 1002 "VolvoTruck"));
                                    Removed 3 (Some (Car 1001 "SAAB"))])) <= 2.
Proof.
  apply (backlog_bounded 2 (mkWarehouse [nullptr; nullptr] 0 0 0)
           [AddVehicle (Some (Car 1001 "SAAB")); AddVehicle (Some (Truck 1002 "VolvoTruck"));
            AddVehicle (Some (Car 1003 "SAAB")); RemoveVehicle 3]).
  - unfold is_int, INT_MIN, INT_MAX. lia.
  - reflexivity.
  - reflexivity.
Defined.

(** * The producer and the dealers together *)

Section Program.

Variable CAPACITY : Z.
Variable plan : list Vehicle.

Lemma store_in_order w delivered stored v id ds :
  ring CAPACITY w ->
  plan = stored ++ v :: producer_loop id ds ->
  Some <$> stored = (Some <$> delivered) ++ queue CAPACITY w ->
  exists s',
    match addVehicle CAPACITY w (Some v) with
    | Waits => Some (w, mkProducer id ds (Some v))
    | Returns w' _ => Some (w', mkProducer id ds None)
    | Undefined => None
    end = Some s' /\
    in_order CAPACITY plan s' delivered.
Proof.
  intros Hring Hplan Hstored.
  destruct (Z.lt_ge_cases (count w) CAPACITY) as [Hlt|Hge].
  - pose proof (addVehicle_returns CAPACITY w (Some v) (ring_wf _ _ Hring) Hlt) as Hadd.
    destruct (ring_add CAPACITY w (Some v) _ Hring Hadd) as [Hring' Hq].
    rewrite Hadd. eexists. split; [done|]. split; [done|].
    exists (stored ++ [v]). cbn [fst snd]. split.
    + rewrite Hplan, <- app_assoc. done.
    + rewrite Hq, fmap_app, Hstored, <- app_assoc. done.
  - rewrite addVehicle_waits by done. eexists. split; [done|]. split; [done|].
    exists stored. done.
Qed.

Lemma system_step_in_order s delivered t :
  in_order CAPACITY plan s delivered ->
  exists s' out,
    system_step CAPACITY s t = Some (s', out) /\
    in_order CAPACITY plan s' (delivered ++ (snd <$> out)).
Proof.
  destruct s as [w [id ds fl]]. intros (Hring & stored & Hplan & Hstored).
  cbn [fst snd] in *. destruct t as [|d]; cbn [system_step fst snd].
  - unfold producer_turn, to_build in *. cbn [in_flight next_id draws_left] in *.
    destruct fl as [v|].
    + destruct (store_in_order w delivered stored v id ds Hring Hplan Hstored)
        as (s' & -> & Hinv).
      exists s', []. by rewrite app_nil_r.
    + destruct ds as [|d ds].
      * exists (w, mkProducer id [] None), []. rewrite app_nil_r.
        split; [done|]. split; [done|]. by exists stored.
      * cbn [producer_loop produce app] in *.
        destruct (store_in_order w delivered stored _ _ ds Hring Hplan Hstored)
          as (s' & -> & Hinv).
        exists s', []. by rewrite app_nil_r.
  - unfold consumer.
    destruct (Z.lt_ge_cases 0 (count w)) as [Hlt|Hge].
    + destruct (removeVehicle_returns CAPACITY w (ring_wf _ _ Hring) Hlt)
        as (x & _ & Hrem).
      destruct (ring_remove CAPACITY w _ x Hring Hrem) as [Hring' Hq].
      rewrite Hrem. rewrite Hq in Hstored.
      assert (x ∈ Some <$> stored) as Hx.
      { rewrite Hstored. apply elem_of_app. right. apply list_elem_of_here. }
      apply list_elem_of_fmap in Hx as (v & -> & _).
      eexists _, [(d, v)]. split; [done|]. split; [done|].
      exists stored. cbn [fst snd]. split; [done|].
      rewrite Hstored, fmap_app, <- app_assoc. done.
    + rewrite removeVehicle_waits by done.
      eexists _, []. split; [done|]. rewrite app_nil_r. split; [done|].
      by exists stored.
Qed.

Lemma system_run_in_order ts : forall s delivered,
  in_order CAPACITY plan s delivered ->
  exists s' out,
    system_run CAPACITY s ts = Some (s', out) /\
    in_order CAPACITY plan s' (delivered ++ (snd <$> out)).
Proof.
  induction ts as [|t ts IH]; intros s delivered Hinv; cbn [system_run].
  - exists s, []. by rewrite app_nil_r.
  - destruct (system_step_in_order s delivered t Hinv) as (s1 & out1 & -> & Hinv1).
    destruct (IH s1 _ Hinv1) as (s2 & out2 & -> & Hinv2).
    exists s2, (out1 ++ out2). split; [done|].
    by rewrite fmap_app, app_assoc.
Qed.

End Program.

Lemma in_order_prefix CAPACITY plan s delivered :
  in_order CAPACITY plan s delivered -> delivered `prefix_of` plan.
Proof.
  intros (_ & stored & -> & Hstored).
  apply prefix_app_r.
  assert (take (length delivered) (Some <$> stored) = Some <$> delivered) as Htake.
  { rewrite Hstored. rewrite <- (length_fmap Some delivered). apply take_app_length. }
  rewrite <- fmap_take in Htake. apply (inj (fmap Some)) in Htake.
  rewrite <- Htake. apply prefix_take.
Qed.

Lemma in_order_start CAPACITY w0 startID draws :
  is_int CAPACITY -> newWarehouse CAPACITY = Constructed w0 ->
  in_order CAPACITY (producer startID draws) (w0, mkProducer startID draws None) [].
Proof.
  intros HC Hnew. split; [by apply newWarehouse_ring|].
  exists []. split; [done|].
  destruct (newWarehouse_queue CAPACITY w0 HC Hnew) as (Hq & _).
  cbn [fst]. by rewrite Hq.
Qed.

(** While the turns left keep [id] below [INT_MAX], every [id++] of a
    turn is exact: [id] plus the number of turns left does not change. *)
Lemma system_step_ids CAPACITY s t s' out :
  is_int (next_id s.2) ->
  next_id s.2 + Z.of_nat (length (draws_left s.2)) <= INT_MAX ->
  system_step CAPACITY s t = Some (s', out) ->
  is_int (next_id s'.2) /\
  next_id s'.2 + Z.of_nat (length (draws_left s'.2)) =
    next_id s.2 + Z.of_nat (length (draws_left s.2)).
Proof.
  destruct s as [w [id ds fl]]. cbn [fst snd next_id draws_left].
  intros Hid Hmax Hstep. destruct t as [|d]; cbn [system_step fst snd] in Hstep.
  - unfold producer_turn in Hstep. cbn [in_flight next_id draws_left] in Hstep.
    destruct fl as [v|].
    + destruct (addVehicle CAPACITY w (Some v)) as [|w1 u|]; [| |done];
        injection Hstep as <- _; done.
    + destruct ds as [|d ds].
      * injection Hstep as <- _. done.
      * cbn [produce] in Hstep. simpl length in Hmax.
        assert (int_wrap (id + 1) = id + 1) as Hwrap.
        { apply int_wrap_id. destruct Hid. split; lia. }
        rewrite Hwrap in Hstep.
        destruct (addVehicle CAPACITY w _) as [|w1 u|]; [| |done];
          injection Hstep as <- _; cbn [snd next_id draws_left];
          (split; [destruct Hid; split; lia | simpl length; lia]).
  - destruct (consumer CAPACITY w) as [|w1 v|]; [| |done];
      injection Hstep as <- _; done.
Qed.

Lemma system_run_ids CAPACITY ts : forall s s' out,
  is_int (next_id s.2) ->
  next_id s.2 + Z.of_nat (length (draws_left s.2)) <= INT_MAX ->
  system_run CAPACITY s ts = Some (s', out) ->
  next_id s'.2 + Z.of_nat (length (draws_left s'.2)) =
    next_id s.2 + Z.of_nat (length (draws_left s.2)).
Proof.
  induction ts as [|t ts IH]; intros s s' out Hid Hmax Hrun; cbn [system_run] in Hrun.
  - by injection Hrun as <- _.
  - destruct (system_step CAPACITY s t) as [[s1 out1]|] eqn:Hstep; [|done].
    destruct (system_run CAPACITY s1 ts) as [[s2 out2]|] eqn:Hrun1; [|done].
    injection Hrun as <- _.
    destruct (system_step_ids CAPACITY s t s1 out1 Hid Hmax Hstep) as [Hid1 Heq1].
    rewrite <- Heq1. apply (IH s1 s2 out2); [done|lia|done].
Qed.

(** X9. As long as no [id++] overflows (the turns observed keep
    [startID + number of turns <= INT_MAX]), whatever the order in which the
    producer and the dealers are granted the mutex, the program runs without
    undefined behaviour: no slot outside the vector is touched, no dealer
    prints through [nullptr], and [id] is [startID] plus the number of
    vehicles built, within [int].  The vehicles the dealers print and
    delete are, in order of delivery, the first vehicles the producer
    built. *)
Theorem dealers_receive_in_production_order CAPACITY w0 startID draws ts :
  is_int CAPACITY ->
  newWarehouse CAPACITY = Constructed w0 ->
  is_int startID ->
  startID + Z.of_nat (length draws) <= INT_MAX ->
  exists s out,
    system_run CAPACITY (w0, mkProducer startID draws None) ts = Some (s, out) /\
    (snd <$> out) `prefix_of` producer startID draws /\
    next_id s.2 =
      startID + (Z.of_nat (length draws) - Z.of_nat (length (draws_left s.2))) /\
    next_id s.2 <= INT_MAX.
Proof.
  intros HC Hnew Hid Hmax.
  pose proof (in_order_start CAPACITY w0 startID draws HC Hnew) as Hstart.
  destruct (system_run_in_order CAPACITY _ ts _ _ Hstart) as (s & out & Hrun & Hinv).
  exists s, out. split; [done|]. split; [by apply (in_order_prefix CAPACITY _ s)|].
  pose proof (system_run_ids CAPACITY ts (w0, mkProducer startID draws None) s out
                Hid Hmax Hrun) as Hids.
  cbn [snd next_id draws_left] in Hids. lia.
Qed.

Lemma dealers_receive_in_production_order_witness :
  exists s out,
    system_run 2 (mkWarehouse [nullptr; nullptr] 0 0 0, mkProducer 1001 [0; 1; 0] None)
      [dealer_turn 1; producer_turn_of; producer_turn_of; producer_turn_of;
       producer_turn_of; dealer_turn 3; dealer_turn 2; producer_turn_of] = Some (s, out) /\
    (snd <$> out) `prefix_of` producer 1001 [0; 1; 0] /\
    next_id s.2 =
      1001 + (Z.of_nat (length [0; 1; 0]) - Z.of_nat (length (draws_left s.2))) /\
    next_id s.2 <= INT_MAX.
Proof.
  apply (dealers_receive_in_production_order 2).
  - unfold is_int, INT_MIN, INT_MAX. lia.
  - reflexivity.
  - unfold is_int, INT_MIN, INT_MAX. lia.
  - unfold INT_MAX. simpl. lia.
Defined.

(** X10. As long as [id] stays within [int], the k-th vehicle delivered to
    a dealer (counting from 0, over all dealers) carries the ID
    [startID + k]; no two deliveries carry the same ID. *)
Theorem delivered_ids_consecutive CAPACITY w0 startID draws ts s out :
  is_int CAPACITY ->
  newWarehouse CAPACITY = Constructed w0 ->
  is_int startID ->
  startID + Z.of_nat (length draws) - 1 <= INT_MAX ->
  system_run CAPACITY (w0, mkProducer startID draws None) ts = Some (s, out) ->
  (forall k dealer v, out !! k = Some (dealer, v) -> ID v = startID + Z.of_nat k) /\
  NoDup (ID <$> (snd <$> out)).
Proof.
  intros HC Hnew Hid Hmax Hrun.
  pose proof (in_order_start CAPACITY w0 startID draws HC Hnew) as Hstart.
  destruct (system_run_in_order CAPACITY _ ts _ _ Hstart) as (s' & out' & Hrun' & Hinv).
  rewrite Hrun in Hrun'. injection Hrun' as <- <-.
  apply in_order_prefix in Hinv. cbn [app] in Hinv. split.
  - intros k d v Hk.
    apply (producer_lookup_id startID draws k v Hid Hmax).
    apply (prefix_lookup_Some (snd <$> out)); [|done].
    by rewrite list_lookup_fmap, Hk.
  - destruct Hinv as [rest Hrest].
    assert (NoDup (ID <$> producer startID draws)) as Hnodup.
    { unfold producer. rewrite producer_loop_ids by done.
      apply NoDup_fmap_2; [|apply NoDup_seq]. intros x y Hxy. lia. }
    rewrite Hrest, fmap_app in Hnodup. by apply NoDup_app in Hnodup as [? _].
Qed.

Lemma delivered_ids_consecutive_witness :
  (forall k dealer v,
     [(3, Car 1001 "SAAB"); (2, Truck 1002 "VolvoTruck")] !! k = Some (dealer, v) ->
     ID v = 1001 + Z.of_nat k) /\
  NoDup (ID <$> (snd <$> [(3, Car 1001 "SAAB"); (2, Truck 1002 "VolvoTruck")])).
Proof.
  apply (delivered_ids_consecutive 2 (mkWarehouse [nullptr; nullptr] 0 0 0)
           1001 [0; 1; 0]
           [dealer_turn 1; producer_turn_of; producer_turn_of; producer_turn_of;
            producer_turn_of; dealer_turn 3; dealer_turn 2; producer_turn_of]
           (mkWarehouse [Some (Car 1003 "SAAB"); nullptr] 1 0 1,
            mkProducer 1004 [] None)).
  - unfold is_int, INT_MIN, INT_MAX. lia.
  - reflexivity.
  - unfold is_int, INT_MIN, INT_MAX. lia.
  - unfold INT_MAX. simpl. lia.
  - reflexivity.
Defined.

(** ** Edge cases *)

(** X11. [addVehicle] does not examine the pointer: on an empty warehouse
    with room, [nullptr] is stored and counted like a vehicle, and the turn
    of a dealer that then takes it is undefined, as it prints through the
    pointer it received. *)
Theorem null_pointer_is_stored_and_breaks_dealer CAPACITY w :
  ring CAPACITY w -> count w = 0 -> 0 < CAPACITY ->
  exists w1,
    addVehicle CAPACITY w nullptr = Returns w1 tt /\
    count w1 = 1 /\
    (exists w2, removeVehicle CAPACITY w1 = Returns w2 nullptr) /\
    consumer CAPACITY w1 = Undefined.
Proof.
  intros Hring Hzero Hpos.
  assert (count w < CAPACITY) as Hlt by lia.
  pose proof (addVehicle_returns CAPACITY w nullptr (ring_wf _ _ Hring) Hlt) as Hadd.
  destruct (ring_add CAPACITY w nullptr _ Hring Hadd) as [Hring1 Hq].
  eexists. split; [exact Hadd|]. split; [cbn [count]; lia|].
  destruct (removeVehicle_returns CAPACITY _ (ring_wf _ _ Hring1)) as (x & Hx & Hrem);
    [cbn [count]; lia|].
  destruct (ring_remove CAPACITY _ _ x Hring1 Hrem) as [_ Hq1].
  rewrite Hq in Hq1.
  assert (queue CAPACITY w = []) as Hempty by (unfold queue; by rewrite Hzero).
  rewrite Hempty in Hq1. injection Hq1 as <- _.
  split; [by eexists|]. unfold consumer. by rewrite Hrem.
Qed.

Lemma null_pointer_is_stored_and_breaks_dealer_witness :
  exists w1,
    addVehicle 8 (mkWarehouse (replicate 8 nullptr) 0 0 0) nullptr = Returns w1 tt /\
    count w1 = 1 /\
    (exists w2, removeVehicle 8 w1 = Returns w2 nullptr) /\
    consumer 8 w1 = Undefined.
Proof.
  apply (null_pointer_is_stored_and_breaks_dealer 8).
  - split; [split|]; simpl; unfold INT_MAX; try lia. reflexivity.
  - reflexivity.
  - lia.
Defined.

(** X12. Round trip: on a reachable empty warehouse with room, a vehicle
    added is the vehicle the next [removeVehicle] returns; afterwards the
    warehouse is empty again, its slots are as before, and [front] and
    [rear] have both moved one slot on. *)
Theorem add_then_remove_round_trip CAPACITY w vehicle :
  is_int CAPACITY -> reachable CAPACITY w -> count w = 0 -> 0 < CAPACITY ->
  exists w1 w2,
    addVehicle CAPACITY w vehicle = Returns w1 tt /\
    removeVehicle CAPACITY w1 = Returns w2 vehicle /\
    vehicles w2 = vehicles w /\
    count w2 = 0 /\
    front w2 = (front w + 1) mod CAPACITY /\
    rear w2 = front w2.
Proof.
  intros HC Hreach Hzero Hpos.
  destruct (reachable_sound CAPACITY w HC Hreach) as (Hring & Hclean & _).
  assert (count w < CAPACITY) as Hlt by lia.
  pose proof (rear_slot_free CAPACITY w Hring Hclean Hlt) as Hfree.
  pose proof (addVehicle_returns CAPACITY w vehicle (ring_wf _ _ Hring) Hlt) as Hadd.
  destruct (ring_add CAPACITY w vehicle _ Hring Hadd) as [Hring1 _].
  destruct (removeVehicle_returns CAPACITY _ (ring_wf _ _ Hring1)) as (x & Hx & Hrem);
    [cbn [count]; lia|].
  destruct Hring as [[Hcap Hsize Hcount Hfront Hrear] Hr].
  assert (rear w = front w) as Hrf.
  { rewrite Hr, Hzero, Z.add_0_r, Z.mod_small; lia. }
  cbn [vehicles front count rear] in Hx, Hrem. rewrite Hrf in *.
  rewrite list_lookup_insert_eq in Hx by lia. injection Hx as <-.
  eexists _, _. split; [exact Hadd|]. split; [exact Hrem|].
  cbn [vehicles count front rear]. split; [|split; [lia|done]].
  rewrite list_insert_insert_eq. by apply list_insert_id.
Qed.

Lemma add_then_remove_round_trip_witness :
  exists w1 w2,
    addVehicle 2 (mkWarehouse [nullptr; nullptr] 0 1 1) (Some (Truck 1002 "VolvoTruck"))
      = Returns w1 tt /\
    removeVehicle 2 w1 = Returns w2 (Some (Truck 1002 "VolvoTruck")) /\
    vehicles w2 = [nullptr; nullptr] /\
    count w2 = 0 /\
    front w2 = (1 + 1) mod 2 /\
    rear w2 = front w2.
Proof.
  apply (add_then_remove_round_trip 2 (mkWarehouse [nullptr; nullptr] 0 1 1)).
  - unfold is_int, INT_MIN, INT_MAX. lia.
  - eapply reachable_remove with (vehicle := Some (Car 1001 "SAAB")).
    + eapply reachable_add with (vehicle := Some (Car 1001 "SAAB")).
      * apply reachable_new. reflexivity.
      * reflexivity.
    + reflexivity.
  - reflexivity.
  - lia.
Defined.

Lemma producer_loop_lookup draws : forall id n d,
  is_int id -> id + Z.of_nat (length draws) - 1 <= INT_MAX ->
  draws !! n = Some d ->
  producer_loop id draws !! n =
    Some (if d =? 0 then Car (id + Z.of_nat n) "SAAB"
          else Truck (id + Z.of_nat n) "VolvoTruck").
Proof.
  induction draws as [|d0 ds IH]; intros id n d Hid Hmax Hn; [done|].
  cbn [producer_loop produce]. destruct n as [|n].
  - injection Hn as <-. simpl. by rewrite Z.add_0_r.
  - cbn [lookup list_lookup] in *.
    pose proof (lookup_lt_Some _ _ _ Hn) as Hlen. simpl length in Hmax.
    assert (int_wrap (id + 1) = id + 1) as Hwrap.
    { apply int_wrap_id. destruct Hid. split; lia. }
    rewrite Hwrap.
    replace (id + Z.of_nat (S n)) with (id + 1 + Z.of_nat n) by lia.
    apply IH; [|lia|done]. destruct Hid. split; lia.
Qed.

(** X13. As long as [id] stays within [int], the vehicle built in turn n
    (from 0) is decided by the draw of that turn: a car of model SAAB for
    4 passengers when the draw is 0, a truck of model VolvoTruck for a load
    of 4000 otherwise, with the ID [startID + n] in both cases. *)
Theorem producer_builds_by_draw startID draws n d :
  is_int startID ->
  startID + Z.of_nat (length draws) - 1 <= INT_MAX ->
  draws !! n = Some d ->
  producer startID draws !! n =
    Some (if d =? 0
          then CarObject (startID + Z.of_nat n) "SAAB" "Car" 4
          else TruckObject (startID + Z.of_nat n) "VolvoTruck" "Truck" 4000).
Proof.
  intros Hid Hmax Hn. unfold producer.
  rewrite (producer_loop_lookup draws startID n d) by done.
  by destruct (d =? 0).
Qed.

Lemma producer_builds_by_draw_witness :
  producer 1001 [0; 1; 1] !! 2%nat =
    Some (if 1 =? 0
          then CarObject (1001 + Z.of_nat 2) "SAAB" "Car" 4
          else TruckObject (1001 + Z.of_nat 2) "VolvoTruck" "Truck" 4000).
Proof.
  apply (producer_builds_by_draw 1001 [0; 1; 1] 2 1).
  - unfold is_int, INT_MIN, INT_MAX. lia.
  - unfold INT_MAX. simpl. lia.
  - reflexivity.
Defined.

Lemma run_removes CAPACITY dealers : forall w,
  ring CAPACITY w ->
  exists w',
    run CAPACITY w (RemoveVehicle <$> dealers) =
      Some (w', zip_with Removed dealers (queue CAPACITY w)) /\
    count w' = Z.max 0 (count w - Z.of_nat (length dealers)).
Proof.
  induction dealers as [|d ds IH]; intros w Hring.
  - exists w. split; [done|]. destruct Hring as [[] _]. simpl. lia.
  - rewrite fmap_cons. cbn [run attempt].
    destruct (Z.lt_ge_cases 0 (count w)) as [Hlt|Hge].
    + destruct (removeVehicle_returns CAPACITY w (ring_wf _ _ Hring) Hlt)
        as (v & _ & Hrem).
      destruct (ring_remove CAPACITY w _ v Hring Hrem) as [Hring' Hq].
      destruct (IH _ Hring') as (w' & Hrun & Hc). cbn [count] in Hc.
      exists w'. rewrite Hrem, Hrun, Hq. split; [done|].
      rewrite Hc. simpl length. lia.
    + destruct (IH w Hring) as (w' & Hrun & Hc).
      exists w'. rewrite removeVehicle_waits, Hrun by done.
      assert (queue CAPACITY w = []) as ->.
      { destruct Hring as [[] _]. unfold queue.
        by replace (Z.to_nat (count w)) with 0%nat by lia. }
      split; [by destruct ds|]. rewrite Hc. destruct Hring as [[] _].
      simpl length. lia.
Qed.

(** X14. Dealers working alone on a reachable warehouse take the waiting
    vehicles oldest first, one each: the first dealers are served in the
    order of the queue, and once the warehouse is empty every further
    dealer waits. *)
Theorem lone_dealers_drain_in_order CAPACITY w dealers :
  is_int CAPACITY -> reachable CAPACITY w ->
  exists w',
    run CAPACITY w (RemoveVehicle <$> dealers) =
      Some (w', zip_with Removed dealers (queue CAPACITY w)) /\
    count w' = Z.max 0 (count w - Z.of_nat (length dealers)).
Proof.
  intros HC Hreach. apply run_removes. by apply reachable_ring.
Qed.

Lemma lone_dealers_drain_in_order_witness :
  exists w',
    run 2 (mkWarehouse [Some (Car 1001 "SAAB"); nullptr] 1 0 1)
        (RemoveVehicle <$> [4; 1; 3]) =
      Some (w', zip_with Removed [4; 1; 3]
                  (queue 2 (mkWarehouse [Some (Car 1001 "SAAB"); nullptr] 1 0 1))) /\
    count w' = Z.max 0 (1 - Z.of_nat 3).
Proof.
  apply (lone_dealers_drain_in_order 2
           (mkWarehouse [Some (Car 1001 "SAAB"); nullptr] 1 0 1) [4; 1; 3]).
  - unfold is_int, INT_MIN, INT_MAX. lia.
  - eapply reachable_add with (vehicle := Some (Car 1001 "SAAB")).
    + apply reachable_new. reflexivity.
    + reflexivity.
Defined.
